(** * SourceCred graph backend: identifier codec and graph merge

    A shallow embedding of [src/backend/graph.js].

    Conventions of the embedding.
    - A JavaScript string is a [string]: a sequence of code units, here
      the 8-bit ones.  The only code unit the program inspects is ["$"].
    - A function that may [throw] returns in the sum [exn + A]
      ([inl] an exception, [inr] a value).
    - An object used as a dictionary ([{[stringID: string]: ...}]) is a
      [gmap string _].  The operator [key in obj] is modelled as
      own-key membership, which is what it computes for every key that
      names no property inherited from [Object.prototype]; the keys of
      a graph are identifier tokens, which contain ["$"] and name none.
      A theorem that would fail for an inherited name states the
      condition on the keys as a hypothesis ([separator_keyed]).
    - [GraphNode<T>] and [GraphEdge<T>] keep their payload type as a
      parameter; [JSON.stringify] on a payload and on a [number] is the
      host's serializer and is a parameter of the merge section. *)

From Stdlib Require Import Ascii.
From stdpp Require Import gmap strings list fin_maps pretty.

(** ** Exceptions *)

(** The two kinds of exception this file can raise: [new Error(message)]
    thrown by the program, and the [TypeError] the runtime raises when a
    value that is not a function is called (its message is left to the
    engine by the language definition, so none is recorded). *)
Inductive exn : Type :=
| Error (message : string)
| TypeError.

#[global] Instance exn_eq_dec : EqDecision exn.
Proof. solve_decision. Defined.

(** ** Host string operations *)

Definition dollar : ascii := "$"%char.
Definition dquote : ascii := "034"%char.
Definition backslash : ascii := "\"%char.

(** [s.includes(c)] for a needle of one code unit. *)
Fixpoint includes (s : string) (c : ascii) : bool :=
  match s with
  | EmptyString => false
  | String a s' => if decide (a = c) then true else includes s' c
  end.

(** [s.split(c)] for a separator of one code unit: the maximal runs of
    [s] between occurrences of [c], in order; never the empty array. *)
Fixpoint split (s : string) (c : ascii) : list string :=
  match s with
  | EmptyString => [EmptyString]
  | String a s' =>
      if decide (a = c) then EmptyString :: split s' c
      else match split s' c with
           | [] => [String a EmptyString]
           | p :: ps => String a p :: ps
           end
  end.

(** The inverse direction, [parts.join(c)]; used in statements only. *)
Fixpoint join (parts : list string) (c : ascii) : string :=
  match parts with
  | [] => EmptyString
  | [p] => p
  | p :: ps => p +:+ String c (join ps c)
  end.

(** [JSON.stringify] on a string (the QuoteJSONString operation): the
    string between double quotes, with the quote, the backslash and the
    control characters escaped. *)
Definition hex_digit (n : N) : ascii :=
  ascii_of_N (if (n <? 10)%N then 48 + n else 87 + n).

Definition quote_unit (a : ascii) : string :=
  let n := N_of_ascii a in
  if decide (a = dquote) then String backslash (String dquote EmptyString)
  else if decide (a = backslash) then String backslash (String backslash EmptyString)
  else if (n =? 8)%N then String backslash "b"
  else if (n =? 9)%N then String backslash "t"
  else if (n =? 10)%N then String backslash "n"
  else if (n =? 12)%N then String backslash "f"
  else if (n =? 13)%N then String backslash "r"
  else if (n <? 32)%N then
    String backslash ("u00" +:+ String (hex_digit (n / 16)) (String (hex_digit (n mod 16)) EmptyString))
  else String a EmptyString.

Fixpoint quote_units (s : string) : string :=
  match s with
  | EmptyString => EmptyString
  | String a s' => quote_unit a +:+ quote_units s'
  end.

Definition JSON_stringify_string (s : string) : string :=
  String dquote (quote_units s +:+ String dquote EmptyString).

(** ** Identifiers *)

Record ID : Type := mkID {
  pluginName : string;
  repositoryName : string;
  name : string;
}.

#[global] Instance ID_eq_dec : EqDecision ID.
Proof. solve_decision. Defined.

(** The text [must not include "$": ] shared by the three messages of
    [idToString]. *)
Definition must_not_include : string :=
  " must not include " +:+ String dquote ("$" +:+ String dquote ": ").

Definition idToString (id : ID) : exn + string :=
  if includes (pluginName id) dollar then
    let escaped := JSON_stringify_string (pluginName id) in
    inl (Error ("id.pluginName" +:+ must_not_include +:+ escaped))
  else if includes (repositoryName id) dollar then
    let escaped := JSON_stringify_string (repositoryName id) in
    inl (Error ("id.repositoryName" +:+ must_not_include +:+ escaped))
  else if includes (name id) dollar then
    let escaped := JSON_stringify_string (name id) in
    inl (Error ("id.name" +:+ must_not_include +:+ escaped))
  else
    inr (pluginName id +:+ String dollar (repositoryName id +:+ String dollar (name id))).

(** [stringToID] is declared on strings, but one call site of this file
    passes it an [ID] object; the argument is therefore a tagged value,
    and [string.split] is a method call on it. *)
Inductive value : Type :=
| VString (s : string)
| VID (id : ID).

Coercion VString : string >-> value.

(** [receiver.split("$")]: a string has the method; an [ID] object has the
    three properties of its type and no [split], so the call is a call of
    [undefined] and raises [TypeError]. *)
Definition call_split (receiver : value) (c : ascii) : exn + list string :=
  match receiver with
  | VString s => inr (split s c)
  | VID _ => inl TypeError
  end.

(** [JSON.stringify] of the argument, for the message; never reached for
    an [ID] argument, whose method call raises first. *)
Definition JSON_stringify_ID (id : ID) : string :=
  "{" +:+ JSON_stringify_string "pluginName" +:+ ":" +:+ JSON_stringify_string (pluginName id)
  +:+ "," +:+ JSON_stringify_string "repositoryName" +:+ ":" +:+ JSON_stringify_string (repositoryName id)
  +:+ "," +:+ JSON_stringify_string "name" +:+ ":" +:+ JSON_stringify_string (name id) +:+ "}".

Definition JSON_stringify_value (v : value) : string :=
  match v with
  | VString s => JSON_stringify_string s
  | VID id => JSON_stringify_ID id
  end.

Definition stringToID (string : value) : exn + ID :=
  match call_split string dollar with
  | inl e => inl e
  | inr parts =>
      if negb (length parts =? 3) then
        let escaped := JSON_stringify_value string in
        inl (Error ("Input should have exactly two $s: " +:+ escaped))
      else
        inr {| pluginName := nth 0 parts EmptyString;
               repositoryName := nth 1 parts EmptyString;
               name := nth 2 parts EmptyString |}
  end.

(** ** Graphs *)

Module GraphNode.
Record t (T : Type) : Type := mk {
  id : ID;
  edges : list ID;
  payload : T;
}.
Arguments mk {T} _ _ _.
Arguments id {T} _.
Arguments edges {T} _.
Arguments payload {T} _.
End GraphNode.

Module GraphEdge.
Record t (number T : Type) : Type := mk {
  id : ID;
  sourceId : ID;
  destId : ID;
  weight : number;
  payload : T;
}.
Arguments mk {number T} _ _ _ _ _.
Arguments id {number T} _.
Arguments sourceId {number T} _.
Arguments destId {number T} _.
Arguments weight {number T} _.
Arguments payload {number T} _.
End GraphEdge.

Module Graph.
Record t (number T : Type) : Type := mk {
  nodes : gmap string (GraphNode.t T);
  edges : gmap string (GraphEdge.t number T);
}.
Arguments mk {number T} _ _.
Arguments nodes {number T} _.
Arguments edges {number T} _.
End Graph.

#[global] Instance GraphNode_inhabited {T} `{Inhabited T} : Inhabited (GraphNode.t T) :=
  populate (GraphNode.mk (mkID EmptyString EmptyString EmptyString) [] inhabitant).

#[global] Instance GraphEdge_inhabited {number T} `{Inhabited number, Inhabited T} :
  Inhabited (GraphEdge.t number T) :=
  populate (GraphEdge.mk (mkID EmptyString EmptyString EmptyString)
              (mkID EmptyString EmptyString EmptyString)
              (mkID EmptyString EmptyString EmptyString) inhabitant inhabitant).

(** ** Control flow: [throw] and sequencing *)

#[global] Instance exn_ret : MRet (sum exn) := fun _ a => inr a.
#[global] Instance exn_bind : MBind (sum exn) := fun _ _ f m =>
  match m with
  | inl e => inl e
  | inr a => f a
  end.

Definition throw {A} (e : exn) : exn + A := inl e.

(** [keys.forEach(callback)], where the callback assigns to the object
    [result] or throws; a throw leaves the loop. *)
Fixpoint forEach {S : Type} (keys : list string)
    (callback : string -> S -> exn + S) (result : S) : exn + S :=
  match keys with
  | [] => mret result
  | key :: keys' => result' ← callback key result; forEach keys' callback result'
  end.

(** [Object.keys(obj)].  The enumeration order of the engine (insertion
    order) is not recorded by a [gmap]; the keys come in the map's own
    order, each key once. *)
Definition Object_keys {V} (obj : gmap string V) : list string :=
  (map_to_list obj).*1.

(** [key in obj], for a key that names no property of
    [Object.prototype]: the test is then whether [obj] has the key as
    its own.  [JS_in] below adds the inherited names; the statements
    that depend on the difference carry [separator_keyed]. *)
Definition in_ {V} (key : string) (obj : gmap string V) : bool :=
  bool_decide (is_Some (obj !! key)).

(** The body shared by the two loops of [mergeGraphs]:
    [if (key in result) { result[key] = reducer(d1[key], d2[key]); }].
    The conditional has no [else]: for a key that [result] lacks the
    callback does nothing. *)
Definition mergeKey {V} `{Inhabited V} (d1 d2 : gmap string V)
    (reducer : V -> V -> exn + V) (key : string) (result : gmap string V) :
    exn + gmap string V :=
  if in_ key result then
    v ← reducer (d1 !!! key) (d2 !!! key);
    mret (<[key := v]> result)
  else mret result.

Section Merge.
Context {number mixed : Type} `{Inhabited number, Inhabited mixed}.

(** The host serializer on the two opaque types.  Payloads are data the
    serializer returns on (no cycle); on a number it always gives a text
    ([null] for a non-finite one); on a payload it gives [None] for a
    value [JSON.stringify] leaves out of an object ([undefined], a
    function). *)
Variable JSON_stringify_number : number -> string.
Variable JSON_stringify_mixed : mixed -> option string.

Local Abbreviation Node := (GraphNode.t mixed).
Local Abbreviation Edge := (GraphEdge.t number mixed).
Local Abbreviation GraphT := (Graph.t number mixed).

(** [mergeGraphs] on values: [result] starts as the copy of the two
    dictionaries of [g1]; the first loop runs over the keys of
    [g2.nodes], the second over those of [g2.edges]. *)
Definition mergeGraphs (g1 g2 : GraphT)
    (nodeReducer : Node -> Node -> exn + Node)
    (edgeReducer : Edge -> Edge -> exn + Edge) : exn + GraphT :=
  let result_nodes := Graph.nodes g1 in
  let result_edges := Graph.edges g1 in
  result_nodes ← forEach (Object_keys (Graph.nodes g2))
    (mergeKey (Graph.nodes g1) (Graph.nodes g2) nodeReducer) result_nodes;
  result_edges ← forEach (Object_keys (Graph.edges g2))
    (mergeKey (Graph.edges g1) (Graph.edges g2) edgeReducer) result_edges;
  mret (Graph.mk result_nodes result_edges).

(** [JSON.stringify] on a node and on an edge: the properties in the
    order of their type, a property whose value has no JSON text left
    out. *)
Definition JSON_property (key : string) (text : option string) : list string :=
  match text with
  | Some s => [JSON_stringify_string key +:+ ":" +:+ s]
  | None => []
  end.

Definition JSON_object (properties : list string) : string :=
  "{" +:+ join properties ","%char +:+ "}".

Definition JSON_stringify_IDs (ids : list ID) : string :=
  "[" +:+ join (JSON_stringify_ID <$> ids) ","%char +:+ "]".

Definition JSON_stringify_node (a : Node) : string :=
  JSON_object
    (JSON_property "id" (Some (JSON_stringify_ID (GraphNode.id a)))
     ++ JSON_property "edges" (Some (JSON_stringify_IDs (GraphNode.edges a)))
     ++ JSON_property "payload" (JSON_stringify_mixed (GraphNode.payload a))).

Definition JSON_stringify_edge (a : Edge) : string :=
  JSON_object
    (JSON_property "id" (Some (JSON_stringify_ID (GraphEdge.id a)))
     ++ JSON_property "sourceId" (Some (JSON_stringify_ID (GraphEdge.sourceId a)))
     ++ JSON_property "destId" (Some (JSON_stringify_ID (GraphEdge.destId a)))
     ++ JSON_property "weight" (Some (JSON_stringify_number (GraphEdge.weight a)))
     ++ JSON_property "payload" (JSON_stringify_mixed (GraphEdge.payload a))).

(** The text a template literal gives for an object: [String(obj)]. *)
Definition object_Object : string := "[object Object]".

Definition confluentNodeReducer (a b : Node) : exn + Node :=
  if decide (JSON_stringify_node a = JSON_stringify_node b) then mret a
  else
    shown ← stringToID (VID (GraphNode.id a));
    throw (Error ("distinct nodes with id " +:+ object_Object)).

Definition confluentEdgeReducer (a b : Edge) : exn + Edge :=
  if decide (JSON_stringify_edge a = JSON_stringify_edge b) then mret a
  else
    shown ← stringToID (VID (GraphEdge.id a));
    throw (Error ("distinct edge with id " +:+ object_Object)).

Definition mergeGraphsConsistent (g1 g2 : GraphT) : exn + GraphT :=
  mergeGraphs g1 g2 confluentNodeReducer confluentEdgeReducer.

Definition mergeGraphsArbitrary (g1 g2 : GraphT) : exn + GraphT :=
  mergeGraphs g1 g2 (fun a b => mret b) (fun a b => mret b).

End Merge.

(** What the loop of [mergeGraphs] leaves under a key when the reducer
    returns its second argument: nothing where the first dictionary has
    nothing. *)
Definition overwritten {V} (d1 d2 : gmap string V) (k : string) : option V :=
  match d1 !! k, d2 !! k with
  | Some a, Some b => Some b
  | Some a, None => Some a
  | None, _ => None
  end.

(** ** The same merge over a store of objects

    [mergeGraphs] builds its result by assignment: [result.nodes] and
    [result.edges] are objects created by the spread [{...g1.nodes}],
    [{...g1.edges}] and then written to.  To tell a copy from an alias
    the objects live in a store and a graph is a reference.  Node and
    edge records are never written by this file and are kept by value;
    a reducer is a function of two such values. *)
Module Heap.

Definition loc : Type := positive.

Inductive object (number mixed : Type) : Type :=
| OGraph (nodes edges : loc)
| ONodes (dict : gmap string (GraphNode.t mixed))
| OEdges (dict : gmap string (GraphEdge.t number mixed)).
Arguments OGraph {number mixed} _ _.
Arguments ONodes {number mixed} _.
Arguments OEdges {number mixed} _.

Section Store.
Context {number mixed : Type} `{Inhabited number, Inhabited mixed}.

Local Abbreviation Node := (GraphNode.t mixed).
Local Abbreviation Edge := (GraphEdge.t number mixed).
Local Abbreviation heap := (gmap loc (object number mixed)).

(** A computation on the store that may throw; the store survives a
    throw. *)
Definition M (A : Type) : Type := heap -> (exn + A) * heap.

Definition ret {A} (a : A) : M A := fun h => (inr a, h).
Definition bind {A B} (m : M A) (k : A -> M B) : M B := fun h =>
  match m h with
  | (inl e, h') => (inl e, h')
  | (inr a, h') => k a h'
  end.
Definition lift {A} (r : exn + A) : M A := fun h => (r, h).

#[global] Instance M_ret : MRet M := @ret.
#[global] Instance M_bind : MBind M := fun A B k m => bind m k.

(** Object creation: a reference no object of the store has. *)
Definition alloc (o : object number mixed) : M loc := fun h =>
  let l := fresh (dom h) in (inr l, <[l := o]> h).

(** [g.nodes] and [g.edges].  A reference that is not a graph does not
    arise for arguments of the declared types; the model throws. *)
Definition get_nodes (g : loc) : M loc := fun h =>
  match h !! g with
  | Some (OGraph n _) => (inr n, h)
  | _ => (inl TypeError, h)
  end.

Definition get_edges (g : loc) : M loc := fun h =>
  match h !! g with
  | Some (OGraph _ e) => (inr e, h)
  | _ => (inl TypeError, h)
  end.

(** The own properties of a dictionary object, read at once. *)
Definition read_nodes (l : loc) : M (gmap string Node) := fun h =>
  match h !! l with
  | Some (ONodes d) => (inr d, h)
  | _ => (inl TypeError, h)
  end.

Definition read_edges (l : loc) : M (gmap string Edge) := fun h =>
  match h !! l with
  | Some (OEdges d) => (inr d, h)
  | _ => (inl TypeError, h)
  end.

(** [dict[key] = v]: the one assignment form of the program. *)
Definition write_node (l : loc) (key : string) (v : Node) : M unit := fun h =>
  match h !! l with
  | Some (ONodes d) => (inr tt, <[l := ONodes (<[key := v]> d)]> h)
  | _ => (inl TypeError, h)
  end.

Definition write_edge (l : loc) (key : string) (v : Edge) : M unit := fun h =>
  match h !! l with
  | Some (OEdges d) => (inr tt, <[l := OEdges (<[key := v]> d)]> h)
  | _ => (inl TypeError, h)
  end.

Fixpoint forEach (keys : list string) (callback : string -> M unit) : M unit :=
  match keys with
  | [] => ret tt
  | key :: keys' => callback key;; forEach keys' callback
  end.

(** The callback of the first loop:
    [if (key in result.nodes) result.nodes[key] = nodeReducer(g1.nodes[key], g2.nodes[key])]. *)
Definition mergeNode (g1 g2 result : loc)
    (nodeReducer : Node -> Node -> exn + Node) (key : string) : M unit :=
  rn ← get_nodes result;
  d ← read_nodes rn;
  if in_ key d then
    n1 ← get_nodes g1;
    d1 ← read_nodes n1;
    n2 ← get_nodes g2;
    d2 ← read_nodes n2;
    v ← lift (nodeReducer (d1 !!! key) (d2 !!! key));
    rn ← get_nodes result;
    write_node rn key v
  else ret tt.

(** The callback of the second loop, on [edges]. *)
Definition mergeEdge (g1 g2 result : loc)
    (edgeReducer : Edge -> Edge -> exn + Edge) (key : string) : M unit :=
  re ← get_edges result;
  d ← read_edges re;
  if in_ key d then
    e1 ← get_edges g1;
    d1 ← read_edges e1;
    e2 ← get_edges g2;
    d2 ← read_edges e2;
    v ← lift (edgeReducer (d1 !!! key) (d2 !!! key));
    re ← get_edges result;
    write_edge re key v
  else ret tt.

Definition mergeGraphs (g1 g2 : loc)
    (nodeReducer : Node -> Node -> exn + Node)
    (edgeReducer : Edge -> Edge -> exn + Edge) : M loc :=
  g1_nodes ← get_nodes g1;
  copy ← read_nodes g1_nodes;
  result_nodes ← alloc (ONodes copy);
  g1_edges ← get_edges g1;
  copy ← read_edges g1_edges;
  result_edges ← alloc (OEdges copy);
  result ← alloc (OGraph result_nodes result_edges);
  g2_nodes ← get_nodes g2;
  keys ← read_nodes g2_nodes;
  forEach (Object_keys keys) (mergeNode g1 g2 result nodeReducer);;
  g2_edges ← get_edges g2;
  keys ← read_edges g2_edges;
  forEach (Object_keys keys) (mergeEdge g1 g2 result edgeReducer);;
  ret result.


(** The store during the loops of [mergeGraphs]: the store [h0] of the
    call with the three objects of the result on top, the dictionaries
    holding [d] and [de]. *)
Definition during (h0 : heap) (result rn re : loc)
    (d : gmap string Node) (de : gmap string Edge) : heap :=
  <[rn := ONodes d]> (<[re := OEdges de]> (<[result := OGraph rn re]> h0)).

End Store.
End Heap.

(** ** A concrete instance

    Payloads that are strings and weights that are integers, with the
    texts [JSON.stringify] gives for them. *)
Module Scenario.

Definition stringify_weight (w : Z) : string := pretty w.
Definition stringify_payload (p : string) : option string :=
  Some (JSON_stringify_string p).

Definition consistent := mergeGraphsConsistent stringify_weight stringify_payload.
Definition arbitrary := @mergeGraphsArbitrary Z string _ _.

Definition id_a : ID := mkID "p" "r" "a".
Definition id_b : ID := mkID "p" "r" "b".

Definition NodeA : GraphNode.t string := GraphNode.mk id_a [] "A".
Definition NodeA' : GraphNode.t string := GraphNode.mk id_a [] "A'".
Definition NodeB : GraphNode.t string := GraphNode.mk id_b [] "B".

Definition empty : Graph.t Z string := Graph.mk ∅ ∅.
Definition g1 : Graph.t Z string := Graph.mk {[ "p$r$a" := NodeA ]} ∅.
Definition g2 : Graph.t Z string :=
  Graph.mk (<[ "p$r$a" := NodeA' ]> {[ "p$r$b" := NodeB ]}) ∅.

Definition id_e : ID := mkID "p" "r" "e".
Definition EdgeAB : GraphEdge.t Z string := GraphEdge.mk id_e id_a id_b 1%Z "E".
Definition EdgeAB' : GraphEdge.t Z string := GraphEdge.mk id_e id_a id_b 2%Z "E".

(** A graph that shares no id with [g1]. *)
Definition g3 : Graph.t Z string :=
  Graph.mk {[ "p$r$b" := NodeB ]} {[ "p$r$e" := EdgeAB ]}.

(** A graph that agrees with [g1] on the id they share. *)
Definition g4 : Graph.t Z string :=
  Graph.mk (<[ "p$r$a" := NodeA ]> {[ "p$r$b" := NodeB ]}) ∅.

(** Two graphs that disagree on the weight of one edge. *)
Definition g5 : Graph.t Z string := Graph.mk ∅ {[ "p$r$e" := EdgeAB ]}.
Definition g6 : Graph.t Z string := Graph.mk ∅ {[ "p$r$e" := EdgeAB' ]}.

(** The graph with the node ["p$r$a"] alone, at its later value. *)
Definition later_a : Graph.t Z string := Graph.mk {[ "p$r$a" := NodeA' ]} ∅.

(** The graph with both nodes, the later value under ["p$r$a"]. *)
Definition both_nodes : Graph.t Z string :=
  Graph.mk (<[ "p$r$a" := NodeA' ]> {[ "p$r$b" := NodeB ]}) ∅.

(** A store holding [g1] at reference 1 and [g2] at reference 4, each
    with its two dictionaries. *)
Definition store : gmap Heap.loc (Heap.object Z string) :=
  <[1%positive := Heap.OGraph 2%positive 3%positive]>
  (<[2%positive := Heap.ONodes (Graph.nodes g1)]>
  (<[3%positive := Heap.OEdges (Graph.edges g1)]>
  (<[4%positive := Heap.OGraph 5%positive 6%positive]>
  (<[5%positive := Heap.ONodes (Graph.nodes g2)]>
  (<[6%positive := Heap.OEdges (Graph.edges g2)]> ∅))))).

Definition last_wins_node (a b : GraphNode.t string) : exn + GraphNode.t string := inr b.
Definition last_wins_edge (a b : GraphEdge.t Z string) : exn + GraphEdge.t Z string := inr b.

End Scenario.

(** ** Names of the error conditions

    The program throws plain [Error]s; the three conditions are told
    apart by their messages. *)

(** [idToString]: the message for an offending field and its value. *)
Definition InvalidIdentifier (field value : string) : exn :=
  Error ("id." +:+ field +:+ must_not_include +:+ JSON_stringify_string value).

(** [stringToID]: the message for an argument that does not split in
    three. *)
Definition MalformedToken (token : value) : exn :=
  Error ("Input should have exactly two $s: " +:+ JSON_stringify_value token).

(** [message] contains [token] as a substring. *)
Definition contains (message token : string) : Prop :=
  exists before after : string, message = before +:+ token +:+ after.

(** A merge conflict that names an identifier: an [Error] whose message
    contains the identifier's token. *)
Definition MergeConflict (token : string) (e : exn) : Prop :=
  exists message : string, e = Error message /\ contains message token.

(** An identifier none of whose fields contains the separator. *)
Definition separator_free (i : ID) : Prop :=
  includes (pluginName i) dollar = false
  /\ includes (repositoryName i) dollar = false
  /\ includes (name i) dollar = false.

(** The fields of an identifier with their names, in order. *)
Definition fields (i : ID) : list (string * string) :=
  [("pluginName", pluginName i); ("repositoryName", repositoryName i); ("name", name i)].

(** ** The identifiers of the GitHub plugin *)

Definition GITHUB_PLUGIN_NAME : string := "sourcecred/github-beta".

(** [makeid(name, repositoryName)]: the identifier of the plugin for a
    local name in a repository. *)
Definition makeid (name repositoryName : string) : ID :=
  mkID GITHUB_PLUGIN_NAME repositoryName name.

(** ** Keys and inherited property names *)

(** The own property names of [Object.prototype], as the language
    definition gives them (its annex B included): the names every
    dictionary of a graph inherits. *)
Definition Object_prototype_keys : list string :=
  [ "constructor"; "hasOwnProperty"; "isPrototypeOf"; "propertyIsEnumerable";
    "toLocaleString"; "toString"; "valueOf"; "__proto__";
    "__defineGetter__"; "__defineSetter__"; "__lookupGetter__"; "__lookupSetter__" ].

Definition inherited (key : string) : bool :=
  bool_decide (key ∈ Object_prototype_keys).

(** [key in obj] in full: an own key or an inherited name. *)
Definition JS_in {V} (key : string) (obj : gmap string V) : bool :=
  in_ key obj || inherited key.

(** The loop body with the full test.  What the program does when the
    test holds for an inherited name only (the reducer is then called
    on a value of [Object.prototype], which is no node and no edge) is
    left as the parameter [on_inherited]. *)
Definition mergeKey_full {V} `{Inhabited V} (d1 d2 : gmap string V)
    (reducer : V -> V -> exn + V)
    (on_inherited : string -> gmap string V -> exn + gmap string V)
    (key : string) (result : gmap string V) : exn + gmap string V :=
  if JS_in key result then
    if in_ key result then
      v ← reducer (d1 !!! key) (d2 !!! key);
      mret (<[key := v]> result)
    else on_inherited key result
  else mret result.

(** [mergeGraphs] with the full test in both loops. *)
Definition mergeGraphs_full {number mixed : Type} `{Inhabited number, Inhabited mixed}
    (g1 g2 : Graph.t number mixed)
    (nodeReducer : GraphNode.t mixed -> GraphNode.t mixed -> exn + GraphNode.t mixed)
    (edgeReducer : GraphEdge.t number mixed -> GraphEdge.t number mixed
                   -> exn + GraphEdge.t number mixed)
    (on_inherited_node : string -> gmap string (GraphNode.t mixed)
                         -> exn + gmap string (GraphNode.t mixed))
    (on_inherited_edge : string -> gmap string (GraphEdge.t number mixed)
                         -> exn + gmap string (GraphEdge.t number mixed)) :
    exn + Graph.t number mixed :=
  result_nodes ← forEach (Object_keys (Graph.nodes g2))
    (mergeKey_full (Graph.nodes g1) (Graph.nodes g2) nodeReducer on_inherited_node)
    (Graph.nodes g1);
  result_edges ← forEach (Object_keys (Graph.edges g2))
    (mergeKey_full (Graph.edges g1) (Graph.edges g2) edgeReducer on_inherited_edge)
    (Graph.edges g1);
  mret (Graph.mk result_nodes result_edges).

(** Every key of the dictionary contains the separator, as every
    identifier token does. *)
Definition separator_keys {V} (d : gmap string V) : bool :=
  forallb (fun key => includes key dollar) (Object_keys d).

(** The keys of both dictionaries of the graph contain the separator. *)
Definition separator_keyed {number T} (g : Graph.t number T) : Prop :=
  separator_keys (Graph.nodes g) = true /\ separator_keys (Graph.edges g) = true.

(** ** Vocabulary of the further statements *)

(** How often the code unit [c] occurs in [s]. *)
Fixpoint occurrences (s : string) (c : ascii) : nat :=
  match s with
  | EmptyString => 0
  | String a s' => (if decide (a = c) then 1 else 0) + occurrences s' c
  end.

(** What a loop of [mergeGraphs] that returns [d] has done under the key
    [k], for dictionaries [d1] of the first and [d2] of the second
    graph. *)
Definition reduced {V} (reducer : V -> V -> exn + V)
    (d1 d2 d : gmap string V) (k : string) : Prop :=
  match d1 !! k, d2 !! k with
  | Some a, Some b => exists v, reducer a b = inr v /\ d !! k = Some v
  | Some a, None => d !! k = Some a
  | None, _ => d !! k = None
  end.

(** The reducer returns on every pair of values two dictionaries hold
    under a common key. *)
Definition returns_on_shared {V} (reducer : V -> V -> exn + V)
    (d1 d2 : gmap string V) : Prop :=
  forall k a b, d1 !! k = Some a -> d2 !! k = Some b -> exists v, reducer a b = inr v.

(** Two dictionaries hold values of equal text under every common key. *)
Definition agree {V} (text : V -> string) (d1 d2 : gmap string V) : Prop :=
  forall k a b, d1 !! k = Some a -> d2 !! k = Some b -> text a = text b.

(** * Properties of the identifier codec *)

Section SplitFacts.
Variable c : ascii.

Lemma split_not_nil (s : string) : split s c <> [].
Proof.
  destruct s as [|a s]; simpl; [done|].
  case_decide; [done|]. by destruct (split s c).
Qed.

Lemma split_cons_other (a : ascii) (s : string) :
  a <> c -> exists p ps, split s c = p :: ps /\ split (String a s) c = String a p :: ps.
Proof.
  intros Hne. simpl. rewrite decide_False by done.
  destruct (split s c) as [|p ps] eqn:E; [by destruct (split_not_nil s)|eauto].
Qed.

Lemma split_free (p : string) : includes p c = false -> split p c = [p].
Proof.
  induction p as [|a p IH]; simpl; [done|].
  case_decide; [done|]. intros Hp. by rewrite IH.
Qed.

Lemma split_app_sep (p rest : string) :
  includes p c = false -> split (p +:+ String c rest) c = p :: split rest c.
Proof.
  induction p as [|a p IH]; simpl.
  - intros _. by rewrite decide_True.
  - case_decide; [done|]. intros Hp. by rewrite IH.
Qed.

Lemma split_parts_free (s : string) :
  Forall (fun p => includes p c = false) (split s c).
Proof.
  induction s as [|a s IH]; simpl.
  - by constructor.
  - case_decide as Ha.
    + by constructor.
    + destruct (split s c) as [|p ps]; [by repeat constructor; simpl; rewrite ?decide_False|].
      inversion_clear IH. constructor; [|done]. simpl. by rewrite decide_False.
Qed.

Lemma join_split (s : string) : join (split s c) c = s.
Proof.
  induction s as [|a s IH]; simpl; [done|].
  case_decide as Ha.
  - subst a. destruct (split s c) as [|p ps] eqn:E; [by destruct (split_not_nil s)|].
    simpl in *. by rewrite IH.
  - destruct (split s c) as [|p ps] eqn:E; [by destruct (split_not_nil s)|].
    destruct ps; simpl in *; by rewrite <- IH.
Qed.

End SplitFacts.

Lemma stringToID_split (t : string) :
  stringToID t =
    match split t dollar with
    | [a; b; c] => inr (mkID a b c)
    | _ => inl (MalformedToken t)
    end.
Proof.
  unfold stringToID, call_split.
  destruct (split t dollar) as [|a [|b [|c [|d l]]]]; done.
Qed.

Lemma idToString_separator_free (i : ID) :
  separator_free i ->
  idToString i = inr (join [pluginName i; repositoryName i; name i] dollar).
Proof. intros (Hp & Hr & Hn). unfold idToString. by rewrite Hp, Hr, Hn. Qed.

(** C4.  Round trip: an identifier whose three fields are free of ["$"]
    is encoded to a token, and decoding that token gives the identifier
    back. *)
Theorem decode_encode (i : ID) :
  separator_free i ->
  exists token : string, idToString i = inr token /\ stringToID token = inr i.
Proof.
  intros Hi. destruct (Hi) as (Hp & Hr & Hn).
  eexists. split; [by apply idToString_separator_free|].
  rewrite stringToID_split. simpl.
  rewrite split_app_sep, split_app_sep, split_free by done.
  by destruct i.
Qed.

Lemma decode_encode_witness :
  separator_free (mkID "sourcecred/github-beta" "sourcecred" "42")
  /\ exists token : string,
       idToString (mkID "sourcecred/github-beta" "sourcecred" "42") = inr token
       /\ stringToID token = inr (mkID "sourcecred/github-beta" "sourcecred" "42").
Proof.
  split; [by repeat split|].
  apply (decode_encode (mkID "sourcecred/github-beta" "sourcecred" "42")).
  by repeat split.
Defined.

(** The field [idToString] reports is the first one, in the order of the
    type, that contains the separator. *)
Lemma idToString_first_offender (i : ID) :
  idToString i =
    if includes (pluginName i) dollar then
      inl (InvalidIdentifier "pluginName" (pluginName i))
    else if includes (repositoryName i) dollar then
      inl (InvalidIdentifier "repositoryName" (repositoryName i))
    else if includes (name i) dollar then
      inl (InvalidIdentifier "name" (name i))
    else inr (join [pluginName i; repositoryName i; name i] dollar).
Proof. reflexivity. Qed.

(** C6.  [idToString] throws exactly when one of the three fields
    contains ["$"]; the exception is then the invalid-identifier error
    whose message names a field that contains it, with that field's
    value; when no field contains ["$"] the result is the three fields
    joined by ["$"]. *)
Theorem idToString_error_iff (i : ID) :
  ((exists e : exn, idToString i = inl e) <->
     (includes (pluginName i) dollar = true
      \/ includes (repositoryName i) dollar = true
      \/ includes (name i) dollar = true))
  /\ (forall e : exn, idToString i = inl e ->
        exists field value : string,
          (field, value) ∈ fields i
          /\ includes value dollar = true
          /\ e = InvalidIdentifier field value)
  /\ (forall token : string, idToString i = inr token ->
        token = join [pluginName i; repositoryName i; name i] dollar).
Proof.
  rewrite idToString_first_offender. unfold fields.
  destruct (includes (pluginName i) dollar) eqn:Hp;
    [|destruct (includes (repositoryName i) dollar) eqn:Hr;
      [|destruct (includes (name i) dollar) eqn:Hn]].
  - split; [split; eauto|]. split; [|done].
    intros e [= <-]. exists "pluginName", (pluginName i).
    split; [set_solver|done].
  - split; [split; eauto|]. split; [|done].
    intros e [= <-]. exists "repositoryName", (repositoryName i).
    split; [set_solver|done].
  - split; [split; eauto|]. split; [|done].
    intros e [= <-]. exists "name", (name i).
    split; [set_solver|done].
  - split; [|split; [done|by intros ? [= <-]]].
    split; [by intros [e ?]|]. by intros [?|[?|?]].
Qed.

Lemma idToString_error_iff_witness :
  idToString (mkID "p" "r$x" "a") = inl (InvalidIdentifier "repositoryName" "r$x").
Proof.
  destruct (idToString_error_iff (mkID "p" "r$x" "a")) as [[_ Hthrows] [Hnames _]].
  destruct Hthrows as [e He]; [right; left; reflexivity|].
  rewrite He. f_equal.
  destruct (Hnames e He) as (field & value & Hin & Hinc & ->).
  unfold fields in Hin. simpl in Hin.
  apply elem_of_cons in Hin as [[= -> ->]|Hin]; [discriminate Hinc|].
  apply elem_of_cons in Hin as [[= -> ->]|Hin]; [reflexivity|].
  apply elem_of_cons in Hin as [[= -> ->]|Hin]; [discriminate Hinc|].
  by apply elem_of_nil in Hin.
Defined.

(** C7.  On a string, [stringToID] throws exactly when the split at
    ["$"] does not give three parts, and the exception is then the
    malformed-token error for that string; when it returns, the result
    holds the three parts in order. *)
Theorem stringToID_error_iff (t : string) :
  ((exists e : exn, stringToID t = inl e) <-> length (split t dollar) <> 3)
  /\ (forall e : exn, stringToID t = inl e -> e = MalformedToken t)
  /\ (forall i : ID, stringToID t = inr i ->
        split t dollar = [pluginName i; repositoryName i; name i]).
Proof.
  rewrite stringToID_split.
  destruct (split t dollar) as [|a [|b [|c [|d l]]]]; simpl.
  - repeat split; eauto; by intros ? [= <-].
  - repeat split; eauto; by intros ? [= <-].
  - repeat split; eauto; by intros ? [= <-].
  - repeat split; [by intros [e ?]|done|done|by intros ? [= <-]].
  - repeat split; eauto; by intros ? [= <-].
Qed.

Lemma stringToID_error_iff_witness :
  stringToID "p$r$a" = inr (mkID "p" "r" "a")
  /\ stringToID "p$r" = inl (MalformedToken "p$r")
  /\ stringToID "p$r$a$b" = inl (MalformedToken "p$r$a$b").
Proof.
  split; [|split].
  - destruct (stringToID_error_iff "p$r$a") as (Hiff & _ & Hparts).
    destruct (stringToID "p$r$a") as [e|i] eqn:E.
    + exfalso. apply (proj1 Hiff); [by exists e|reflexivity].
    + specialize (Hparts i eq_refl). destruct i. simpl in Hparts.
      by injection Hparts as <- <- <-.
  - destruct (stringToID_error_iff "p$r") as (Hiff & Herr & _).
    destruct (proj2 Hiff) as [e He]; [by compute|].
    rewrite He. f_equal. by apply Herr.
  - destruct (stringToID_error_iff "p$r$a$b") as (Hiff & Herr & _).
    destruct (proj2 Hiff) as [e He]; [by compute|].
    rewrite He. f_equal. by apply Herr.
Defined.

(** C10.  A string that splits at ["$"] into exactly three parts is
    decoded to an identifier with separator-free fields, and encoding
    that identifier gives the string back. *)
Theorem encode_decode (t : string) :
  length (split t dollar) = 3 ->
  exists i : ID,
    stringToID t = inr i /\ separator_free i /\ idToString i = inr t.
Proof.
  intros Hlen. pose proof (join_split dollar t) as Hjoin.
  pose proof (split_parts_free dollar t) as Hfree.
  rewrite stringToID_split.
  destruct (split t dollar) as [|a [|b [|c [|d l]]]]; try done.
  apply Forall_cons in Hfree as [Ha Hfree].
  apply Forall_cons in Hfree as [Hb Hfree].
  apply Forall_cons in Hfree as [Hc _].
  exists (mkID a b c). split; [done|]. split; [done|].
  rewrite idToString_separator_free by done. by rewrite <- Hjoin.
Qed.

Lemma encode_decode_witness :
  length (split "p$r$a" dollar) = 3
  /\ exists i : ID,
       stringToID "p$r$a" = inr i /\ separator_free i /\ idToString i = inr "p$r$a".
Proof. split; [reflexivity|]. apply (encode_decode "p$r$a"). reflexivity. Defined.

(** * Properties of the merge *)

Section ForEachFacts.
Context {V : Type} `{Inhabited V}.
Implicit Types (d result : gmap string V) (keys : list string).

Lemma in_is_Some key result : in_ key result = true <-> is_Some (result !! key).
Proof. unfold in_. by rewrite bool_decide_eq_true. Qed.

Lemma in_None key result : in_ key result = false <-> result !! key = None.
Proof.
  unfold in_. rewrite bool_decide_eq_false. by rewrite eq_None_not_Some.
Qed.

Lemma elem_of_Object_keys key d2 : key ∈ Object_keys d2 <-> is_Some (d2 !! key).
Proof.
  unfold Object_keys. rewrite list_elem_of_fmap. split.
  - intros [[k v] [-> Hin]]. apply elem_of_map_to_list in Hin. by exists v.
  - intros [v Hv]. exists (key, v). by rewrite elem_of_map_to_list.
Qed.

Lemma forEach_cons {S} key keys (callback : string -> S -> exn + S) (r : S) :
  forEach (key :: keys) callback r = callback key r ≫= forEach keys callback.
Proof. reflexivity. Qed.

Lemma mergeKey_present d1 d2 reducer key result v :
  in_ key result = true ->
  reducer (d1 !!! key) (d2 !!! key) = inr v ->
  mergeKey d1 d2 reducer key result = inr (<[key := v]> result).
Proof. intros Hin Hv. unfold mergeKey. by rewrite Hin, Hv. Qed.

Lemma mergeKey_throws d1 d2 reducer key result e :
  in_ key result = true ->
  reducer (d1 !!! key) (d2 !!! key) = inl e ->
  mergeKey d1 d2 reducer key result = inl e.
Proof. intros Hin Hv. unfold mergeKey. by rewrite Hin, Hv. Qed.

Lemma mergeKey_absent d1 d2 reducer key result :
  in_ key result = false ->
  mergeKey d1 d2 reducer key result = inr result.
Proof. intros Hin. unfold mergeKey. by rewrite Hin. Qed.

(** The loop when the reducer returns on every key it is called on:
    the keys of [result] stay, and those among [keys] take the reduced
    value. *)
Lemma forEach_mergeKey_returns d1 d2 reducer (f : string -> V) keys result :
  (forall key, key ∈ keys -> is_Some (result !! key) ->
     reducer (d1 !!! key) (d2 !!! key) = inr (f key)) ->
  exists result',
    forEach keys (mergeKey d1 d2 reducer) result = inr result'
    /\ forall k, result' !! k =
         (fun v => if decide (k ∈ keys) then f k else v) <$> result !! k.
Proof.
  revert result. induction keys as [|key keys IH]; intros result Hred.
  - exists result. split; [done|]. intros k. by destruct (result !! k).
  - rewrite forEach_cons. destruct (in_ key result) eqn:Hin.
    + apply in_is_Some in Hin as Hsome.
      rewrite (mergeKey_present _ _ _ _ _ (f key));
        [|done|by apply Hred; [apply list_elem_of_here|]].
      destruct (IH (<[key := f key]> result)) as (result' & Hrun & Hlook).
      { intros key' Hkey' Hsome'. apply Hred; [by apply list_elem_of_further|].
        destruct (decide (key = key')) as [<-|Hne]; [done|].
        by rewrite lookup_insert_ne in Hsome'. }
      exists result'. split; [done|]. intros k. rewrite Hlook.
      destruct (decide (key = k)) as [<-|Hne].
      * rewrite lookup_insert_eq. destruct Hsome as [v ->].
        cbn [fmap option_fmap option_map]. f_equal.
        rewrite (decide_True (P := key ∈ key :: keys)) by apply list_elem_of_here.
        by case_decide.
      * rewrite lookup_insert_ne by done. destruct (result !! k); [|done].
        cbn [fmap option_fmap option_map]. f_equal.
        apply decide_ext. rewrite elem_of_cons. split; [by right|].
        intros [->|?]; [congruence|done].
    + rewrite mergeKey_absent by done. apply in_None in Hin as Hnone.
      destruct (IH result) as (result' & Hrun & Hlook).
      { intros key' Hkey' Hsome'. apply Hred; [by apply list_elem_of_further|done]. }
      exists result'. split; [done|]. intros k. rewrite Hlook.
      destruct (result !! k) eqn:Hk; [|done].
      cbn [fmap option_fmap option_map]. f_equal.
      apply decide_ext. rewrite elem_of_cons. split; [by right|].
      intros [->|?]; [congruence|done].
Qed.

(** The loop when some call of the reducer throws [e] and no call
    throws anything else. *)
Lemma forEach_mergeKey_throws d1 d2 reducer (e : exn) keys result :
  (forall a b, reducer a b = inl e \/ exists v, reducer a b = inr v) ->
  (exists key, key ∈ keys /\ is_Some (result !! key)
               /\ reducer (d1 !!! key) (d2 !!! key) = inl e) ->
  forEach keys (mergeKey d1 d2 reducer) result = inl e.
Proof.
  intros Hshape. revert result.
  induction keys as [|key keys IH]; intros result (bad & Hbad & Hsome & Hthrow).
  - by apply elem_of_nil in Hbad.
  - rewrite forEach_cons. destruct (in_ key result) eqn:Hin.
    + destruct (Hshape (d1 !!! key) (d2 !!! key)) as [He|[v Hv]].
      { by rewrite (mergeKey_throws _ _ _ _ _ e). }
      rewrite (mergeKey_present _ _ _ _ _ v) by done.
      apply IH. exists bad.
      assert (bad <> key) as Hne by congruence.
      apply elem_of_cons in Hbad as [?|Hbad]; [done|].
      split; [done|]. by rewrite lookup_insert_ne.
    + rewrite mergeKey_absent by done. apply IH. exists bad.
      apply in_None in Hin.
      assert (bad <> key) as Hne.
      { intros ->. rewrite Hin in Hsome. by destruct Hsome. }
      apply elem_of_cons in Hbad as [?|Hbad]; done.
Qed.

End ForEachFacts.

Section MergeFacts.
Context {number mixed : Type} `{Inhabited number, Inhabited mixed}.
Variable JSON_stringify_number : number -> string.
Variable JSON_stringify_mixed : mixed -> option string.

Local Abbreviation Node := (GraphNode.t mixed).
Local Abbreviation Edge := (GraphEdge.t number mixed).
Local Abbreviation GraphT := (Graph.t number mixed).
Local Abbreviation consistent :=
  (mergeGraphsConsistent JSON_stringify_number JSON_stringify_mixed).
Local Abbreviation nodeText := (JSON_stringify_node JSON_stringify_mixed).
Local Abbreviation edgeText :=
  (JSON_stringify_edge JSON_stringify_number JSON_stringify_mixed).

Lemma forEach_arbitrary {V} `{Inhabited V} (d1 d2 : gmap string V) :
  exists result,
    forEach (Object_keys d2) (mergeKey d1 d2 (fun a b => mret b)) d1 = inr result
    /\ forall k, result !! k = overwritten d1 d2 k.
Proof.
  destruct (forEach_mergeKey_returns d1 d2 (fun a b => mret b)
              (fun key => d2 !!! key) (Object_keys d2) d1) as (result & Hrun & Hlook);
    [done|].
  exists result. split; [done|]. intros k. rewrite Hlook. unfold overwritten.
  destruct (d1 !! k) as [a|]; [|done]. cbn [fmap option_fmap option_map].
  case_decide as Hk; rewrite elem_of_Object_keys in Hk.
  - destruct Hk as [b Hb]. rewrite Hb. f_equal. by apply lookup_total_correct.
  - apply eq_None_not_Some in Hk. by rewrite Hk.
Qed.

(** The last-write-wins merge always returns, and its result is, key by
    key: the later value where both graphs have the key, the value of
    [g1] where only [g1] has it, and nothing where [g1] has not. *)
Lemma mergeGraphsArbitrary_lookup (g1 g2 : GraphT) :
  exists g : GraphT,
    mergeGraphsArbitrary g1 g2 = inr g
    /\ (forall k, Graph.nodes g !! k = overwritten (Graph.nodes g1) (Graph.nodes g2) k)
    /\ (forall k, Graph.edges g !! k = overwritten (Graph.edges g1) (Graph.edges g2) k).
Proof.
  unfold mergeGraphsArbitrary, mergeGraphs.
  destruct (forEach_arbitrary (Graph.nodes g1) (Graph.nodes g2)) as (rn & -> & Hn).
  destruct (forEach_arbitrary (Graph.edges g1) (Graph.edges g2)) as (re & -> & He).
  by exists (Graph.mk rn re).
Qed.

(** The graph without nodes and edges absorbs on the left and is
    neutral on the right. *)
Lemma mergeGraphs_empty_l (g : GraphT) nodeReducer edgeReducer :
  mergeGraphs (Graph.mk ∅ ∅) g nodeReducer edgeReducer = inr (Graph.mk ∅ ∅).
Proof.
  unfold mergeGraphs. cbn [Graph.nodes Graph.edges].
  assert (forall V `{Inhabited V} (d : gmap string V) reducer keys,
            forEach keys (mergeKey ∅ d reducer) ∅ = inr ∅) as Hloop.
  { intros V ? d reducer keys. induction keys as [|key keys IH]; [done|].
    rewrite forEach_cons, mergeKey_absent; [done|]. by apply in_None. }
  by rewrite !Hloop.
Qed.

Lemma mergeGraphs_empty_r (g : GraphT) nodeReducer edgeReducer :
  mergeGraphs g (Graph.mk ∅ ∅) nodeReducer edgeReducer = inr g.
Proof.
  unfold mergeGraphs. cbn [Graph.nodes Graph.edges].
  unfold Object_keys. rewrite !map_to_list_empty. by destruct g.
Qed.

(** In particular an id that only the second graph has is absent from
    the merge: the loop body has no branch for it. *)
Lemma mergeGraphsArbitrary_new_id_dropped (g1 g2 : GraphT) (k : string) :
  Graph.nodes g1 !! k = None ->
  exists g : GraphT, mergeGraphsArbitrary g1 g2 = inr g /\ Graph.nodes g !! k = None.
Proof.
  intros Hk. destruct (mergeGraphsArbitrary_lookup g1 g2) as (g & Hg & Hn & _).
  exists g. split; [done|]. rewrite Hn. unfold overwritten. by rewrite Hk.
Qed.

Lemma confluentNodeReducer_agree (a b : Node) :
  nodeText a = nodeText b ->
  confluentNodeReducer JSON_stringify_mixed a b = inr a.
Proof. intros Hab. unfold confluentNodeReducer. by rewrite decide_True. Qed.

Lemma confluentNodeReducer_conflict (a b : Node) :
  nodeText a <> nodeText b ->
  confluentNodeReducer JSON_stringify_mixed a b = inl TypeError.
Proof. intros Hab. unfold confluentNodeReducer. by rewrite decide_False. Qed.

Lemma confluentEdgeReducer_agree (a b : Edge) :
  edgeText a = edgeText b ->
  confluentEdgeReducer JSON_stringify_number JSON_stringify_mixed a b = inr a.
Proof. intros Hab. unfold confluentEdgeReducer. by rewrite decide_True. Qed.

Lemma confluentEdgeReducer_conflict (a b : Edge) :
  edgeText a <> edgeText b ->
  confluentEdgeReducer JSON_stringify_number JSON_stringify_mixed a b = inl TypeError.
Proof. intros Hab. unfold confluentEdgeReducer. by rewrite decide_False. Qed.

(** A loop of the confluent merge over dictionaries that agree, in the
    sense of [text], on their common keys leaves the first dictionary
    as it was. *)
Lemma forEach_confluent {V} `{Inhabited V} (text : V -> string)
    (reducer : V -> V -> exn + V) (d1 d2 : gmap string V) :
  (forall a b, text a = text b -> reducer a b = inr a) ->
  (forall k a b, d1 !! k = Some a -> d2 !! k = Some b -> text a = text b) ->
  forEach (Object_keys d2) (mergeKey d1 d2 reducer) d1 = inr d1.
Proof.
  intros Hred Hagree.
  destruct (forEach_mergeKey_returns d1 d2 reducer
              (fun key => d1 !!! key) (Object_keys d2) d1) as (result & Hrun & Hlook).
  { intros key Hkey [a Ha]. apply elem_of_Object_keys in Hkey as [b Hb].
    rewrite (lookup_total_correct _ _ _ Ha), (lookup_total_correct _ _ _ Hb).
    apply Hred. by apply (Hagree key). }
  rewrite Hrun. f_equal. apply map_eq. intros k. rewrite Hlook.
  destruct (d1 !! k) as [a|] eqn:Ha; [|done]. cbn [fmap option_fmap option_map].
  case_decide; [|done]. f_equal. by apply lookup_total_correct.
Qed.

(** When the texts of all common entries agree the confluent merge
    returns its first argument. *)
Lemma mergeGraphsConsistent_agree (g1 g2 : GraphT) :
  (forall k a b, Graph.nodes g1 !! k = Some a -> Graph.nodes g2 !! k = Some b ->
                 nodeText a = nodeText b) ->
  (forall k a b, Graph.edges g1 !! k = Some a -> Graph.edges g2 !! k = Some b ->
                 edgeText a = edgeText b) ->
  consistent g1 g2 = inr g1.
Proof.
  intros Hn He. unfold mergeGraphsConsistent, mergeGraphs.
  rewrite (forEach_confluent nodeText) by (done || apply confluentNodeReducer_agree).
  cbn [mbind exn_bind].
  rewrite (forEach_confluent edgeText) by (done || apply confluentEdgeReducer_agree).
  by destruct g1.
Qed.

End MergeFacts.

(** ** The test [key in obj] on keys with a separator *)

Lemma inherited_no_separator (key : string) :
  inherited key = true -> includes key dollar = false.
Proof.
  unfold inherited. rewrite bool_decide_eq_true. intros Hin.
  assert (Forall (fun k => includes k dollar = false) Object_prototype_keys) as Hall
    by (repeat constructor).
  rewrite Forall_forall in Hall. by apply Hall.
Qed.

(** On a key that contains the separator the full test is the own-key
    test. *)
Lemma JS_in_separator {V} (key : string) (obj : gmap string V) :
  includes key dollar = true -> JS_in key obj = in_ key obj.
Proof.
  intros Hkey. unfold JS_in. destruct (inherited key) eqn:Hinh.
  - apply inherited_no_separator in Hinh. congruence.
  - by rewrite orb_false_r.
Qed.

Lemma includes_app_sep (p rest : string) (c : ascii) :
  includes (p +:+ String c rest) c = true.
Proof.
  induction p as [|a p IH]; simpl; [by rewrite decide_True|].
  by case_decide.
Qed.

(** A token [idToString] returns contains the separator. *)
Lemma token_separator (i : ID) (token : string) :
  idToString i = inr token -> includes token dollar = true.
Proof.
  rewrite idToString_first_offender.
  destruct (includes (pluginName i) dollar); [done|].
  destruct (includes (repositoryName i) dollar); [done|].
  destruct (includes (name i) dollar); [done|].
  intros [= <-]. apply includes_app_sep.
Qed.

(** Over keys that all contain the separator the loop with the full
    test is the loop with the own-key test, whatever the program does
    on an inherited name. *)
Lemma forEach_mergeKey_full {V} `{Inhabited V} (d1 d2 : gmap string V)
    reducer on_inherited (keys : list string) (result : gmap string V) :
  forallb (fun key => includes key dollar) keys = true ->
  forEach keys (mergeKey_full d1 d2 reducer on_inherited) result
  = forEach keys (mergeKey d1 d2 reducer) result.
Proof.
  revert result. induction keys as [|key keys IH]; intros result Hkeys; [done|].
  simpl in Hkeys. apply andb_true_iff in Hkeys as [Hkey Hkeys].
  rewrite !forEach_cons.
  assert (mergeKey_full d1 d2 reducer on_inherited key result
          = mergeKey d1 d2 reducer key result) as ->.
  { unfold mergeKey_full, mergeKey. rewrite (JS_in_separator _ _ Hkey).
    by destruct (in_ key result). }
  destruct (mergeKey d1 d2 reducer key result) as [e|result']; [done|].
  by apply IH.
Qed.

(** When the keys of the second graph contain the separator, the merge
    with the full test is [mergeGraphs]: no inherited name is met, and
    the own-key test decides as the program does. *)
Lemma mergeGraphs_full_separator_keyed {number mixed : Type}
    `{Inhabited number, Inhabited mixed} (g1 g2 : Graph.t number mixed)
    nodeReducer edgeReducer on_inherited_node on_inherited_edge :
  separator_keyed g2 ->
  mergeGraphs_full g1 g2 nodeReducer edgeReducer on_inherited_node on_inherited_edge
  = mergeGraphs g1 g2 nodeReducer edgeReducer.
Proof.
  intros [Hn He]. unfold mergeGraphs_full, mergeGraphs.
  by rewrite !forEach_mergeKey_full.
Qed.

Section ConfluentFacts.
Context {number mixed : Type} `{Inhabited number, Inhabited mixed}.
Variable JSON_stringify_number : number -> string.
Variable JSON_stringify_mixed : mixed -> option string.

Local Abbreviation Node := (GraphNode.t mixed).
Local Abbreviation Edge := (GraphEdge.t number mixed).
Local Abbreviation GraphT := (Graph.t number mixed).
Local Abbreviation consistent :=
  (mergeGraphsConsistent JSON_stringify_number JSON_stringify_mixed).
Local Abbreviation nodeText := (JSON_stringify_node JSON_stringify_mixed).
Local Abbreviation edgeText :=
  (JSON_stringify_edge JSON_stringify_number JSON_stringify_mixed).

(** C8.  For graphs keyed by tokens (the keys of the second contain the
    separator): when the two graphs hold equal values under every id
    they share, nodes and edges alike, the confluent merge returns, and
    the result holds the common value under every shared id. *)
Theorem mergeGraphsConsistent_succeeds (g1 g2 : GraphT) :
  separator_keyed g2 ->
  (forall k a b, Graph.nodes g1 !! k = Some a -> Graph.nodes g2 !! k = Some b -> a = b) ->
  (forall k a b, Graph.edges g1 !! k = Some a -> Graph.edges g2 !! k = Some b -> a = b) ->
  exists g : GraphT,
    consistent g1 g2 = inr g
    /\ (forall k a, Graph.nodes g1 !! k = Some a -> Graph.nodes g2 !! k = Some a ->
                    Graph.nodes g !! k = Some a)
    /\ (forall k a, Graph.edges g1 !! k = Some a -> Graph.edges g2 !! k = Some a ->
                    Graph.edges g !! k = Some a).
Proof.
  intros _ Hn He. exists g1. split; [|done].
  apply mergeGraphsConsistent_agree.
  - intros k a b Ha Hb. by rewrite (Hn k a b).
  - intros k a b Ha Hb. by rewrite (He k a b).
Qed.

Lemma confluentNodeReducer_shape (a b : Node) :
  confluentNodeReducer JSON_stringify_mixed a b = inl TypeError
  \/ exists v, confluentNodeReducer JSON_stringify_mixed a b = inr v.
Proof. unfold confluentNodeReducer. case_decide; eauto. Qed.

Lemma confluentEdgeReducer_shape (a b : Edge) :
  confluentEdgeReducer JSON_stringify_number JSON_stringify_mixed a b = inl TypeError
  \/ exists v, confluentEdgeReducer JSON_stringify_number JSON_stringify_mixed a b = inr v.
Proof. unfold confluentEdgeReducer. case_decide; eauto. Qed.

Lemma forEach_mergeKey_shape {V} `{Inhabited V} (d1 d2 : gmap string V)
    reducer (e : exn) keys result :
  (forall a b, reducer a b = inl e \/ exists v, reducer a b = inr v) ->
  forEach keys (mergeKey d1 d2 reducer) result = inl e
  \/ exists result', forEach keys (mergeKey d1 d2 reducer) result = inr result'.
Proof.
  intros Hshape. revert result. induction keys as [|key keys IH]; intros result.
  - right. by exists result.
  - rewrite forEach_cons. destruct (in_ key result) eqn:Hin.
    + destruct (Hshape (d1 !!! key) (d2 !!! key)) as [He|[v Hv]].
      * left. by rewrite (mergeKey_throws _ _ _ _ _ e).
      * rewrite (mergeKey_present _ _ _ _ _ v) by done. apply IH.
    + rewrite mergeKey_absent by done. apply IH.
Qed.

Lemma forEach_conflict {V} `{Inhabited V} (text : V -> string)
    (reducer : V -> V -> exn + V) (d1 d2 : gmap string V) :
  (forall a b, reducer a b = inl TypeError \/ exists v, reducer a b = inr v) ->
  (forall a b, text a <> text b -> reducer a b = inl TypeError) ->
  (exists k a b, d1 !! k = Some a /\ d2 !! k = Some b /\ text a <> text b) ->
  forEach (Object_keys d2) (mergeKey d1 d2 reducer) d1 = inl TypeError.
Proof.
  intros Hshape Hred (k & a & b & Ha & Hb & Hab).
  apply forEach_mergeKey_throws; [done|]. exists k.
  split; [by apply elem_of_Object_keys|]. split; [done|].
  rewrite (lookup_total_correct _ _ _ Ha), (lookup_total_correct _ _ _ Hb).
  by apply Hred.
Qed.

(** C3.  What the confluent merge does on a conflict: when, under some
    shared node id or edge id, the two graphs hold values whose texts
    differ, the merge throws, and the exception is the [TypeError] of
    calling [split] on an identifier object; it is no [Error] and its
    message names no identifier. *)
Theorem mergeGraphsConsistent_conflict (g1 g2 : GraphT) :
  (exists k a b, Graph.nodes g1 !! k = Some a /\ Graph.nodes g2 !! k = Some b
                 /\ nodeText a <> nodeText b)
  \/ (exists k a b, Graph.edges g1 !! k = Some a /\ Graph.edges g2 !! k = Some b
                    /\ edgeText a <> edgeText b) ->
  consistent g1 g2 = inl TypeError
  /\ forall token : string, ~ MergeConflict token TypeError.
Proof.
  intros Hconflict. split; [|by intros token (message & [=] & _)].
  unfold mergeGraphsConsistent, mergeGraphs.
  destruct Hconflict as [Hn|He].
  - rewrite (forEach_conflict nodeText); [done|apply confluentNodeReducer_shape| |done].
    apply confluentNodeReducer_conflict.
  - destruct (forEach_mergeKey_shape (Graph.nodes g1) (Graph.nodes g2)
                (confluentNodeReducer JSON_stringify_mixed) TypeError
                (Object_keys (Graph.nodes g2)) (Graph.nodes g1)) as [->|[rn ->]];
      [apply confluentNodeReducer_shape|done|].
    cbn [mbind exn_bind].
    rewrite (forEach_conflict edgeText); [done|apply confluentEdgeReducer_shape| |done].
    apply confluentEdgeReducer_conflict.
Qed.

End ConfluentFacts.

(** * The merge on concrete graphs *)

Lemma mergeGraphsConsistent_conflict_witness :
  Scenario.consistent Scenario.g1 Scenario.g2 = inl TypeError
  /\ forall token : string, ~ MergeConflict token TypeError.
Proof.
  apply (mergeGraphsConsistent_conflict Scenario.stringify_weight
           Scenario.stringify_payload Scenario.g1 Scenario.g2).
  left. exists "p$r$a", Scenario.NodeA, Scenario.NodeA'.
  split; [reflexivity|]. split; [reflexivity|]. vm_compute. discriminate.
Defined.

Lemma mergeGraphsConsistent_succeeds_witness :
  exists g : Graph.t Z string,
    Scenario.consistent Scenario.g1 Scenario.g4 = inr g
    /\ (forall k a, Graph.nodes Scenario.g1 !! k = Some a ->
                    Graph.nodes Scenario.g4 !! k = Some a ->
                    Graph.nodes g !! k = Some a)
    /\ (forall k a, Graph.edges Scenario.g1 !! k = Some a ->
                    Graph.edges Scenario.g4 !! k = Some a ->
                    Graph.edges g !! k = Some a).
Proof.
  apply (mergeGraphsConsistent_succeeds Scenario.stringify_weight
           Scenario.stringify_payload Scenario.g1 Scenario.g4).
  - split; reflexivity.
  - intros k a b Ha Hb. simpl in Ha, Hb.
    apply lookup_singleton_Some in Ha as [<- <-].
    rewrite lookup_insert_eq in Hb. by injection Hb.
  - intros k a b Ha. simpl in Ha. by rewrite lookup_empty in Ha.
Defined.

(** C1.  The last-write-wins merge on [g1] and [g3], which share no id:
    the result is [g1] itself; the node ["p$r$b"] and the edge
    ["p$r$e"], which only the second graph has, are not in it. *)
Theorem mergeGraphsArbitrary_drops_new_ids :
  exists g : Graph.t Z string,
    Scenario.arbitrary Scenario.g1 Scenario.g3 = inr g
    /\ g = Scenario.g1
    /\ Graph.nodes Scenario.g3 !! "p$r$b" = Some Scenario.NodeB
    /\ Graph.nodes g !! "p$r$b" = None
    /\ Graph.edges Scenario.g3 !! "p$r$e" = Some Scenario.EdgeAB
    /\ Graph.edges g !! "p$r$e" = None.
Proof. exists Scenario.g1. by vm_compute. Qed.

(** C2.  The scenario of the two graphs that disagree on ["p$r$a"]:
    the last-write-wins merge returns the graph with the single node
    ["p$r$a"], holding the later value, and without ["p$r$b"]; the
    confluent merge throws a [TypeError], which is no conflict error
    naming ["p$r$a"]. *)
Theorem scenario_merges :
  Scenario.arbitrary Scenario.g1 Scenario.g2
    = inr (Graph.mk {[ "p$r$a" := Scenario.NodeA' ]} ∅)
  /\ Graph.mk {[ "p$r$a" := Scenario.NodeA' ]} ∅ <> Scenario.both_nodes
  /\ Scenario.consistent Scenario.g1 Scenario.g2 = inl TypeError
  /\ ~ MergeConflict "p$r$a" TypeError.
Proof.
  split; [by vm_compute|]. split; [|split; [by vm_compute|]].
  - intros Heq. apply (f_equal (fun g => Graph.nodes g !! "p$r$b")) in Heq.
    vm_compute in Heq. discriminate.
  - by intros (message & [=] & _).
Qed.

(** An edge on whose weight the two graphs disagree: the confluent
    merge throws the same [TypeError], the last-write-wins merge takes
    the later edge. *)
Example edge_conflict :
  Scenario.consistent Scenario.g5 Scenario.g6 = inl TypeError
  /\ Scenario.arbitrary Scenario.g5 Scenario.g6 = inr Scenario.g6.
Proof. split; by vm_compute. Qed.

(** C5.  Folding the one-node graph [g1] into the empty accumulator:
    under either policy the merge returns the empty graph, which is not
    [g1]. *)
Theorem merge_into_empty :
  Scenario.arbitrary Scenario.empty Scenario.g1 = inr Scenario.empty
  /\ Scenario.consistent Scenario.empty Scenario.g1 = inr Scenario.empty
  /\ Scenario.empty <> Scenario.g1.
Proof.
  split; [by vm_compute|]. split; [by vm_compute|].
  intros Heq. apply (f_equal (fun g => Graph.nodes g !! "p$r$a")) in Heq.
  vm_compute in Heq. discriminate.
Qed.

(** * The merge over the store: inputs untouched, result fresh *)

Section StoreFacts.
Context {number mixed : Type} `{Inhabited number, Inhabited mixed}.

Local Abbreviation Node := (GraphNode.t mixed).
Local Abbreviation Edge := (GraphEdge.t number mixed).
Local Abbreviation heap := (gmap Heap.loc (Heap.object number mixed)).



Section Loops.
Variables (h0 : heap) (g1 g2 result rn re : Heap.loc).
Variables (n1 e1 n2 e2 : Heap.loc).
Variables (dn1 dn2 : gmap string Node) (de1 de2 : gmap string Edge).
Hypothesis Hg1 : h0 !! g1 = Some (Heap.OGraph n1 e1).
Hypothesis Hn1 : h0 !! n1 = Some (Heap.ONodes dn1).
Hypothesis He1 : h0 !! e1 = Some (Heap.OEdges de1).
Hypothesis Hg2 : h0 !! g2 = Some (Heap.OGraph n2 e2).
Hypothesis Hn2 : h0 !! n2 = Some (Heap.ONodes dn2).
Hypothesis He2 : h0 !! e2 = Some (Heap.OEdges de2).
Hypothesis Hresult : h0 !! result = None.
Hypothesis Hrn : h0 !! rn = None.
Hypothesis Hre : h0 !! re = None.
Hypothesis Hdistinct : rn <> re /\ rn <> result /\ re <> result.

Local Abbreviation during := (Heap.during h0 result rn re).

Lemma during_old d de l o : h0 !! l = Some o -> during d de !! l = Some o.
Proof.
  intros Hl. unfold Heap.during.
  rewrite !lookup_insert_ne by congruence. done.
Qed.






Lemma during_extends d de : h0 ⊆ during d de.
Proof.
  apply map_subseteq_spec. intros l o Hl. by apply during_old.
Qed.






End Loops.





End StoreFacts.


(** The call on the concrete store: the result is the new reference 9
    with the new dictionaries 7 and 8; the dictionary of [g1] at
    reference 2 holds what it held, and the new one holds the later
    value. *)
Example mergeGraphs_on_store :
  exists h' : gmap Heap.loc (Heap.object Z string),
    Heap.mergeGraphs 1%positive 4%positive
      Scenario.last_wins_node Scenario.last_wins_edge Scenario.store
      = (inr 9%positive, h')
    /\ h' !! 9%positive = Some (Heap.OGraph 7%positive 8%positive)
    /\ h' !! 2%positive = Some (Heap.ONodes {[ "p$r$a" := Scenario.NodeA ]})
    /\ h' !! 7%positive = Some (Heap.ONodes {[ "p$r$a" := Scenario.NodeA' ]}).
Proof. eexists. split; [by vm_compute|]. by vm_compute. Qed.

(** * Further properties of the identifier codec *)

Lemma split_length_occurrences (s : string) (c : ascii) :
  length (split s c) = S (occurrences s c).
Proof.
  induction s as [|a s IH]; simpl; [done|].
  case_decide.
  - simpl. by rewrite IH.
  - destruct (split s c) as [|p ps] eqn:E; [by destruct (split_not_nil c s)|].
    simpl in *. by rewrite IH.
Qed.

(** What a returned token looks like: the identifier is separator-free
    and the token splits into its three fields. *)
Lemma idToString_returns (i : ID) (token : string) :
  idToString i = inr token ->
  separator_free i
  /\ split token dollar = [pluginName i; repositoryName i; name i].
Proof.
  rewrite idToString_first_offender.
  destruct (includes (pluginName i) dollar) eqn:Hp; [done|].
  destruct (includes (repositoryName i) dollar) eqn:Hr; [done|].
  destruct (includes (name i) dollar) eqn:Hn; [done|].
  intros [= <-]. split; [done|]. simpl.
  by rewrite split_app_sep, split_app_sep, split_free.
Qed.

(** X1.  [idToString] is injective: two identifiers that are encoded to
    the same token are the same identifier. *)
Theorem idToString_injective (i j : ID) (token : string) :
  idToString i = inr token -> idToString j = inr token -> i = j.
Proof.
  intros Hi Hj.
  apply idToString_returns in Hi as [_ Hi].
  apply idToString_returns in Hj as [_ Hj].
  rewrite Hi in Hj. destruct i, j. simpl in Hj. by injection Hj as -> -> ->.
Qed.

Lemma idToString_injective_witness :
  idToString (mkID "p" "r" "a") = inr "p$r$a"
  /\ mkID "p" "r" "a" = mkID "p" "r" "a".
Proof.
  split; [reflexivity|].
  apply (idToString_injective (mkID "p" "r" "a") (mkID "p" "r" "a") "p$r$a");
    reflexivity.
Defined.

(** X2.  A token [idToString] returns contains the separator exactly
    twice. *)
Theorem idToString_two_separators (i : ID) (token : string) :
  idToString i = inr token -> occurrences token dollar = 2.
Proof.
  intros Hi. apply idToString_returns in Hi as [_ Hi].
  pose proof (split_length_occurrences token dollar) as Hlen.
  rewrite Hi in Hlen. simpl in Hlen. by injection Hlen.
Qed.

Lemma idToString_two_separators_witness :
  idToString (makeid "42" "sourcecred") = inr "sourcecred/github-beta$sourcecred$42"
  /\ occurrences "sourcecred/github-beta$sourcecred$42" dollar = 2.
Proof.
  split; [reflexivity|].
  apply (idToString_two_separators (makeid "42" "sourcecred")). reflexivity.
Defined.

(** X3.  [stringToID] is injective on strings: two strings that are
    decoded to the same identifier are the same string. *)
Theorem stringToID_injective (t u : string) (i : ID) :
  stringToID t = inr i -> stringToID u = inr i -> t = u.
Proof.
  rewrite !stringToID_split. intros Ht Hu.
  rewrite <- (join_split dollar t), <- (join_split dollar u).
  destruct (split t dollar) as [|a [|b [|c [|d l]]]]; try done.
  destruct (split u dollar) as [|a' [|b' [|c' [|d' l']]]]; try done.
  by injection Ht as <-; injection Hu as <- <- <-.
Qed.

Lemma stringToID_injective_witness :
  stringToID "p$r$a" = inr (mkID "p" "r" "a") /\ "p$r$a" = "p$r$a".
Proof.
  split; [reflexivity|].
  apply (stringToID_injective "p$r$a" "p$r$a" (mkID "p" "r" "a")); reflexivity.
Defined.

(** X4.  [stringToID] returns on a string exactly when the string
    contains the separator exactly twice, as its message says. *)
Theorem stringToID_returns_iff (t : string) :
  (exists i : ID, stringToID t = inr i) <-> occurrences t dollar = 2.
Proof.
  rewrite stringToID_split.
  pose proof (split_length_occurrences t dollar) as Hlen.
  destruct (split t dollar) as [|a [|b [|c [|d l]]]]; simpl in Hlen;
    (split; [intros [i Hi]; try done; lia | intros Hocc; try lia; eauto]).
Qed.

Lemma stringToID_returns_iff_witness :
  (exists i : ID, stringToID "p$r$a" = inr i)
  /\ ~ (exists i : ID, stringToID "p$r$a$b" = inr i).
Proof.
  split.
  - apply (stringToID_returns_iff "p$r$a"). reflexivity.
  - intros Hex. apply (stringToID_returns_iff "p$r$a$b") in Hex. discriminate Hex.
Defined.

(** X5.  An identifier made by [makeid] from a name and a repository
    name that are free of ["$"] is encoded to the plugin name, the
    repository name and the name joined by ["$"], and that token is
    decoded to the identifier. *)
Theorem makeid_token (name repositoryName : string) :
  includes name dollar = false ->
  includes repositoryName dollar = false ->
  idToString (makeid name repositoryName)
    = inr (GITHUB_PLUGIN_NAME +:+ "$" +:+ repositoryName +:+ "$" +:+ name)
  /\ stringToID (GITHUB_PLUGIN_NAME +:+ "$" +:+ repositoryName +:+ "$" +:+ name)
     = inr (makeid name repositoryName).
Proof.
  intros Hn Hr.
  assert (separator_free (makeid name repositoryName)) as Hfree by done.
  split; [by rewrite idToString_separator_free|].
  rewrite stringToID_split.
  change (GITHUB_PLUGIN_NAME +:+ "$" +:+ repositoryName +:+ "$" +:+ name)
    with (GITHUB_PLUGIN_NAME +:+ String dollar (repositoryName +:+ String dollar name)).
  by rewrite split_app_sep, split_app_sep, split_free.
Qed.

Lemma makeid_token_witness :
  idToString (makeid "42/comment" "sourcecred")
    = inr "sourcecred/github-beta$sourcecred$42/comment"
  /\ stringToID "sourcecred/github-beta$sourcecred$42/comment"
     = inr (makeid "42/comment" "sourcecred").
Proof. apply (makeid_token "42/comment" "sourcecred"); reflexivity. Defined.

(** * Further properties of the merge *)

Section LoopFacts.
Context {V : Type} `{Inhabited V}.
Implicit Types (d result : gmap string V) (keys : list string).

(** A loop that returns has, under every key of [result], either kept
    the value or stored what the reducer returned. *)
Lemma forEach_mergeKey_inr (d1 d2 : gmap string V) reducer keys result result' :
  forEach keys (mergeKey d1 d2 reducer) result = inr result' ->
  forall k,
    match result !! k with
    | None => result' !! k = None
    | Some v =>
        if decide (k ∈ keys)
        then exists v', reducer (d1 !!! k) (d2 !!! k) = inr v' /\ result' !! k = Some v'
        else result' !! k = Some v
    end.
Proof.
  revert result. induction keys as [|key keys IH]; intros result Hrun k.
  - injection Hrun as <-. destruct (result !! k); [|done].
    by rewrite decide_False by apply not_elem_of_nil.
  - rewrite forEach_cons in Hrun. destruct (in_ key result) eqn:Hin.
    + destruct (reducer (d1 !!! key) (d2 !!! key)) as [e|v] eqn:Hred.
      { by rewrite (mergeKey_throws _ _ _ _ _ e) in Hrun. }
      rewrite (mergeKey_present _ _ _ _ _ v) in Hrun by done.
      specialize (IH _ Hrun k). apply in_is_Some in Hin as [v0 Hv0].
      destruct (decide (key = k)) as [<-|Hne].
      * rewrite lookup_insert_eq in IH. rewrite Hv0.
        rewrite decide_True by apply list_elem_of_here.
        case_decide; [done|]. by exists v.
      * rewrite lookup_insert_ne in IH by done.
        destruct (result !! k); [|done].
        rewrite (decide_ext (k ∈ key :: keys) (k ∈ keys)); [done|].
        rewrite elem_of_cons. split; [|by right]. intros [->|?]; [congruence|done].
    + rewrite mergeKey_absent in Hrun by done.
      specialize (IH _ Hrun k). apply in_None in Hin.
      destruct (result !! k) eqn:Hk; [|done].
      rewrite (decide_ext (k ∈ key :: keys) (k ∈ keys)); [done|].
      rewrite elem_of_cons. split; [|by right]. intros [->|?]; [congruence|done].
Qed.

(** A loop that throws got its exception from the reducer, called on a
    key of [keys] that [result] has. *)
Lemma forEach_mergeKey_inl (d1 d2 : gmap string V) reducer keys result e :
  forEach keys (mergeKey d1 d2 reducer) result = inl e ->
  exists key, key ∈ keys /\ is_Some (result !! key)
              /\ reducer (d1 !!! key) (d2 !!! key) = inl e.
Proof.
  revert result. induction keys as [|key keys IH]; intros result Hrun; [done|].
  rewrite forEach_cons in Hrun. destruct (in_ key result) eqn:Hin.
  - apply in_is_Some in Hin as Hsome.
    destruct (reducer (d1 !!! key) (d2 !!! key)) as [e'|v] eqn:Hred.
    + rewrite (mergeKey_throws _ _ _ _ _ e') in Hrun by (done || by apply in_is_Some).
      injection Hrun as ->. exists key. split; [apply list_elem_of_here|done].
    + rewrite (mergeKey_present _ _ _ _ _ v) in Hrun by (done || by apply in_is_Some).
      destruct (IH _ Hrun) as (key' & Hkey' & Hsome' & Hthrow).
      exists key'. split; [by apply list_elem_of_further|]. split; [|done].
      destruct (decide (key = key')) as [<-|Hne]; [done|].
      by rewrite lookup_insert_ne in Hsome'.
  - rewrite mergeKey_absent in Hrun by done.
    destruct (IH _ Hrun) as (key' & Hkey' & Hsome' & Hthrow).
    exists key'. split; [by apply list_elem_of_further|done].
Qed.

(** The loop of [mergeGraphs] from the copy of [d1] over the keys of
    [d2]. *)
Lemma loop_reduced (d1 d2 d : gmap string V) reducer :
  forEach (Object_keys d2) (mergeKey d1 d2 reducer) d1 = inr d ->
  forall k, reduced reducer d1 d2 d k.
Proof.
  intros Hrun k. pose proof (forEach_mergeKey_inr _ _ _ _ _ _ Hrun k) as Hk.
  unfold reduced. destruct (d1 !! k) as [a|] eqn:Ha; [|done].
  case_decide as Hin; rewrite elem_of_Object_keys in Hin.
  - destruct Hin as [b Hb]. rewrite Hb.
    by rewrite (lookup_total_correct _ _ _ Ha), (lookup_total_correct _ _ _ Hb) in Hk.
  - apply eq_None_not_Some in Hin. by rewrite Hin.
Qed.

Lemma loop_throws_origin (d1 d2 : gmap string V) reducer e :
  forEach (Object_keys d2) (mergeKey d1 d2 reducer) d1 = inl e ->
  exists k a b, d1 !! k = Some a /\ d2 !! k = Some b /\ reducer a b = inl e.
Proof.
  intros Hrun. apply forEach_mergeKey_inl in Hrun as (k & Hk & [a Ha] & Hthrow).
  apply elem_of_Object_keys in Hk as [b Hb]. exists k, a, b.
  by rewrite (lookup_total_correct _ _ _ Ha), (lookup_total_correct _ _ _ Hb) in Hthrow.
Qed.

Lemma loop_returns (d1 d2 : gmap string V) reducer :
  returns_on_shared reducer d1 d2 ->
  exists d, forEach (Object_keys d2) (mergeKey d1 d2 reducer) d1 = inr d.
Proof.
  intros Hshared.
  destruct (forEach_mergeKey_returns d1 d2 reducer
              (fun key => match reducer (d1 !!! key) (d2 !!! key) with
                          | inr v => v
                          | inl _ => d1 !!! key
                          end) (Object_keys d2) d1) as (d & Hrun & _); [|by exists d].
  intros key Hkey [a Ha]. apply elem_of_Object_keys in Hkey as [b Hb].
  destruct (Hshared key a b Ha Hb) as [v Hv].
  by rewrite (lookup_total_correct _ _ _ Ha), (lookup_total_correct _ _ _ Hb), Hv.
Qed.

Lemma reduced_dom (d1 d2 d : gmap string V) reducer :
  (forall k, reduced reducer d1 d2 d k) -> dom d = dom d1.
Proof.
  intros Hred. apply set_eq. intros k. rewrite !elem_of_dom.
  specialize (Hred k). unfold reduced in Hred.
  destruct (d1 !! k) as [a|]; [|by rewrite Hred].
  destruct (d2 !! k) as [b|]; [|by rewrite Hred].
  destruct Hred as (v & _ & ->). split; eauto.
Qed.

(** A loop over dictionaries without a common key returns the first. *)
Lemma loop_disjoint (d1 d2 : gmap string V) reducer :
  d1 ##ₘ d2 ->
  forEach (Object_keys d2) (mergeKey d1 d2 reducer) d1 = inr d1.
Proof.
  intros Hdisj.
  destruct (loop_returns d1 d2 reducer) as [d Hrun].
  { intros k a b Ha Hb. exfalso. by eapply map_disjoint_spec. }
  rewrite Hrun. f_equal. apply map_eq. intros k.
  pose proof (loop_reduced _ _ _ _ Hrun k) as Hk. unfold reduced in Hk.
  destruct (d1 !! k) as [a|] eqn:Ha; [|done].
  destruct (d2 !! k) as [b|] eqn:Hb; [|done].
  exfalso. by eapply map_disjoint_spec.
Qed.

End LoopFacts.

Section MergeExtras.
Context {number mixed : Type} `{Inhabited number, Inhabited mixed}.
Variable JSON_stringify_number : number -> string.
Variable JSON_stringify_mixed : mixed -> option string.

Local Abbreviation Node := (GraphNode.t mixed).
Local Abbreviation Edge := (GraphEdge.t number mixed).
Local Abbreviation GraphT := (Graph.t number mixed).
Local Abbreviation consistent :=
  (mergeGraphsConsistent JSON_stringify_number JSON_stringify_mixed).
Local Abbreviation nodeText := (JSON_stringify_node JSON_stringify_mixed).
Local Abbreviation edgeText :=
  (JSON_stringify_edge JSON_stringify_number JSON_stringify_mixed).
Local Abbreviation nodeLoop := (fun (g1 g2 : GraphT) nodeReducer =>
  forEach (Object_keys (Graph.nodes g2))
    (mergeKey (Graph.nodes g1) (Graph.nodes g2) nodeReducer) (Graph.nodes g1)).
Local Abbreviation edgeLoop := (fun (g1 g2 : GraphT) edgeReducer =>
  forEach (Object_keys (Graph.edges g2))
    (mergeKey (Graph.edges g1) (Graph.edges g2) edgeReducer) (Graph.edges g1)).

Implicit Types (g : GraphT) (nodeReducer : Node -> Node -> exn + Node)
  (edgeReducer : Edge -> Edge -> exn + Edge).

Lemma mergeGraphs_inr g1 g2 nodeReducer edgeReducer g :
  mergeGraphs g1 g2 nodeReducer edgeReducer = inr g <->
  nodeLoop g1 g2 nodeReducer = inr (Graph.nodes g)
  /\ edgeLoop g1 g2 edgeReducer = inr (Graph.edges g).
Proof.
  unfold mergeGraphs.
  destruct (forEach (Object_keys (Graph.nodes g2)) _ _) as [e|rn]; cbn [mbind exn_bind].
  { split; [done|by intros [? _]]. }
  destruct (forEach (Object_keys (Graph.edges g2)) _ _) as [e|re]; cbn [mbind exn_bind].
  { split; [done|by intros [_ ?]]. }
  destruct g as [dn de]. cbn [mret exn_ret Graph.nodes Graph.edges]. split.
  - by intros [= -> ->].
  - by intros [[= ->] [= ->]].
Qed.

Lemma mergeGraphs_inl g1 g2 nodeReducer edgeReducer e :
  mergeGraphs g1 g2 nodeReducer edgeReducer = inl e ->
  nodeLoop g1 g2 nodeReducer = inl e \/ edgeLoop g1 g2 edgeReducer = inl e.
Proof.
  unfold mergeGraphs.
  destruct (forEach (Object_keys (Graph.nodes g2)) _ _) as [e'|rn]; cbn [mbind exn_bind].
  { intros [= ->]. by left. }
  destruct (forEach (Object_keys (Graph.edges g2)) _ _) as [e'|re]; cbn [mbind exn_bind].
  { intros [= ->]. by right. }
  done.
Qed.

(** X6.  What a merge that returns holds, for any two reducers and a
    second graph whose keys contain the separator: under a
    key of both graphs the value the reducer returned on the value of
    [g1] and the value of [g2]; under a key of [g1] alone the value of
    [g1]; and nothing under a key [g1] has not. *)
Theorem mergeGraphs_reduced g1 g2 nodeReducer edgeReducer g :
  separator_keyed g2 ->
  mergeGraphs g1 g2 nodeReducer edgeReducer = inr g ->
  forall k,
    reduced nodeReducer (Graph.nodes g1) (Graph.nodes g2) (Graph.nodes g) k
    /\ reduced edgeReducer (Graph.edges g1) (Graph.edges g2) (Graph.edges g) k.
Proof.
  intros _ Hrun k. apply mergeGraphs_inr in Hrun as [Hn He].
  split; by apply loop_reduced.
Qed.

(** X7.  A merge that returns has the ids of its first argument, no
    more and no fewer, for any two reducers and a second graph whose
    keys contain the separator. *)
Theorem mergeGraphs_keys g1 g2 nodeReducer edgeReducer g :
  separator_keyed g2 ->
  mergeGraphs g1 g2 nodeReducer edgeReducer = inr g ->
  dom (Graph.nodes g) = dom (Graph.nodes g1)
  /\ dom (Graph.edges g) = dom (Graph.edges g1).
Proof.
  intros _ Hrun. apply mergeGraphs_inr in Hrun as [Hn He]. split.
  - apply (reduced_dom _ (Graph.nodes g2) _ nodeReducer). by apply loop_reduced.
  - apply (reduced_dom _ (Graph.edges g2) _ edgeReducer). by apply loop_reduced.
Qed.

(** X8.  On a second graph whose keys contain the separator,
    [mergeGraphs] returns exactly when both reducers return on every
    pair of values the two graphs hold under a common id. *)
Theorem mergeGraphs_returns_iff g1 g2 nodeReducer edgeReducer :
  separator_keyed g2 ->
  (exists g, mergeGraphs g1 g2 nodeReducer edgeReducer = inr g) <->
  returns_on_shared nodeReducer (Graph.nodes g1) (Graph.nodes g2)
  /\ returns_on_shared edgeReducer (Graph.edges g1) (Graph.edges g2).
Proof.
  intros _. split.
  - intros [g Hrun]. apply mergeGraphs_inr in Hrun as [Hn He]. split.
    + intros k a b Ha Hb. pose proof (loop_reduced _ _ _ _ Hn k) as Hk.
      unfold reduced in Hk. rewrite Ha, Hb in Hk. destruct Hk as (v & Hv & _). eauto.
    + intros k a b Ha Hb. pose proof (loop_reduced _ _ _ _ He k) as Hk.
      unfold reduced in Hk. rewrite Ha, Hb in Hk. destruct Hk as (v & Hv & _). eauto.
  - intros [Hn He].
    destruct (loop_returns _ _ _ Hn) as [dn Hdn].
    destruct (loop_returns _ _ _ He) as [de Hde].
    exists (Graph.mk dn de). by apply mergeGraphs_inr.
Qed.

(** X9.  On a second graph whose keys contain the separator, an
    exception of [mergeGraphs] is one a reducer threw on the two values
    under a common id. *)
Theorem mergeGraphs_throws_origin g1 g2 nodeReducer edgeReducer e :
  separator_keyed g2 ->
  mergeGraphs g1 g2 nodeReducer edgeReducer = inl e ->
  (exists k a b, Graph.nodes g1 !! k = Some a /\ Graph.nodes g2 !! k = Some b
                 /\ nodeReducer a b = inl e)
  \/ (exists k a b, Graph.edges g1 !! k = Some a /\ Graph.edges g2 !! k = Some b
                    /\ edgeReducer a b = inl e).
Proof.
  intros _ Hrun. apply mergeGraphs_inl in Hrun as [Hn|He].
  - left. by apply loop_throws_origin.
  - right. by apply loop_throws_origin.
Qed.

(** X10.  Graphs without a common id, the keys of the second
    containing the separator: the merge returns its first argument,
    whatever the reducers. *)
Theorem mergeGraphs_disjoint g1 g2 nodeReducer edgeReducer :
  separator_keyed g2 ->
  Graph.nodes g1 ##ₘ Graph.nodes g2 ->
  Graph.edges g1 ##ₘ Graph.edges g2 ->
  mergeGraphs g1 g2 nodeReducer edgeReducer = inr g1.
Proof.
  intros _ Hn He. apply mergeGraphs_inr. split; by apply loop_disjoint.
Qed.

Lemma confluent_loop_inr {V} `{Inhabited V} (text : V -> string)
    (reducer : V -> V -> exn + V) (d1 d2 d : gmap string V) :
  (forall a b v, reducer a b = inr v -> v = a /\ text a = text b) ->
  forEach (Object_keys d2) (mergeKey d1 d2 reducer) d1 = inr d ->
  d = d1 /\ agree text d1 d2.
Proof.
  intros Hred Hrun. split.
  - apply map_eq. intros k. pose proof (loop_reduced _ _ _ _ Hrun k) as Hk.
    unfold reduced in Hk. destruct (d1 !! k) as [a|]; [|done].
    destruct (d2 !! k) as [b|]; [|done].
    destruct Hk as (v & Hv & ->). by destruct (Hred _ _ _ Hv) as [-> _].
  - intros k a b Ha Hb. pose proof (loop_reduced _ _ _ _ Hrun k) as Hk.
    unfold reduced in Hk. rewrite Ha, Hb in Hk.
    destruct Hk as (v & Hv & _). by destruct (Hred _ _ _ Hv).
Qed.

Lemma confluentNodeReducer_inr (a b v : Node) :
  confluentNodeReducer JSON_stringify_mixed a b = inr v ->
  v = a /\ nodeText a = nodeText b.
Proof. unfold confluentNodeReducer. case_decide; [by intros [= <-]|done]. Qed.

Lemma confluentEdgeReducer_inr (a b v : Edge) :
  confluentEdgeReducer JSON_stringify_number JSON_stringify_mixed a b = inr v ->
  v = a /\ edgeText a = edgeText b.
Proof. unfold confluentEdgeReducer. case_decide; [by intros [= <-]|done]. Qed.

(** X11.  On a second graph whose keys contain the separator, the
    confluent merge returns exactly when the two graphs hold values of
    equal JSON text under every common id, and what it returns is then
    its first argument. *)
Theorem mergeGraphsConsistent_returns_iff g1 g2 g :
  separator_keyed g2 ->
  consistent g1 g2 = inr g <->
  g = g1
  /\ agree nodeText (Graph.nodes g1) (Graph.nodes g2)
  /\ agree edgeText (Graph.edges g1) (Graph.edges g2).
Proof.
  intros _. split.
  - intros Hrun. apply mergeGraphs_inr in Hrun as [Hn He].
    apply (confluent_loop_inr nodeText) in Hn as [Hdn Hn];
      [|apply confluentNodeReducer_inr].
    apply (confluent_loop_inr edgeText) in He as [Hde He];
      [|apply confluentEdgeReducer_inr].
    split; [|done]. destruct g, g1. simpl in *. by subst.
  - intros (-> & Hn & He). by apply mergeGraphsConsistent_agree.
Qed.

(** X12.  The confluent merge has two outcomes: it returns its first
    argument or it throws [TypeError]; it never throws an [Error] with
    a message. *)
Theorem mergeGraphsConsistent_outcomes g1 g2 :
  consistent g1 g2 = inr g1 \/ consistent g1 g2 = inl TypeError.
Proof.
  destruct (consistent g1 g2) as [e|g] eqn:Hrun.
  - right. f_equal. apply mergeGraphs_inl in Hrun as [Hn|He].
    + apply loop_throws_origin in Hn as (k & a & b & _ & _ & Hthrow).
      destruct (confluentNodeReducer_shape JSON_stringify_mixed a b)
        as [Hs|[v Hs]]; congruence.
    + apply loop_throws_origin in He as (k & a & b & _ & _ & Hthrow).
      destruct (confluentEdgeReducer_shape JSON_stringify_number
                  JSON_stringify_mixed a b)
        as [Hs|[v Hs]]; congruence.
  - left. f_equal. apply mergeGraphs_inr in Hrun as [Hn He].
    apply (confluent_loop_inr nodeText) in Hn as [Hdn _];
      [|apply confluentNodeReducer_inr].
    apply (confluent_loop_inr edgeText) in He as [Hde _];
      [|apply confluentEdgeReducer_inr].
    destruct g, g1. simpl in *. by subst.
Qed.

(** X13.  For two graphs whose keys contain the separator, whether the
    confluent merge returns does not depend on the order of its
    arguments. *)
Theorem mergeGraphsConsistent_symmetric g1 g2 :
  separator_keyed g1 ->
  separator_keyed g2 ->
  (exists g, consistent g1 g2 = inr g) <-> (exists g, consistent g2 g1 = inr g).
Proof.
  intros _ _.
  assert (forall g1 g2, (exists g, consistent g1 g2 = inr g) ->
                        exists g, consistent g2 g1 = inr g) as Hdir.
  { clear g1 g2. intros g1 g2 [g Hrun].
    apply mergeGraphs_inr in Hrun as [Hn He].
    apply (confluent_loop_inr nodeText) in Hn as [_ Hn];
      [|apply confluentNodeReducer_inr].
    apply (confluent_loop_inr edgeText) in He as [_ He];
      [|apply confluentEdgeReducer_inr].
    exists g2. apply mergeGraphsConsistent_agree.
    - intros k a b Ha Hb. symmetry. by apply (Hn k).
    - intros k a b Ha Hb. symmetry. by apply (He k). }
  split; apply Hdir.
Qed.

(** X17.  The confluent merge of a graph with itself returns the
    graph. *)
Theorem mergeGraphsConsistent_reflexive (g : GraphT) :
  consistent g g = inr g.
Proof.
  apply mergeGraphsConsistent_agree; intros k a b Ha Hb; congruence.
Qed.

Lemma arbitrary_eq (g1 g2 g : GraphT) :
  (forall k, Graph.nodes g !! k = overwritten (Graph.nodes g1) (Graph.nodes g2) k) ->
  (forall k, Graph.edges g !! k = overwritten (Graph.edges g1) (Graph.edges g2) k) ->
  mergeGraphsArbitrary g1 g2 = inr g.
Proof.
  intros Hn He. destruct (mergeGraphsArbitrary_lookup g1 g2) as (g' & -> & Hn' & He').
  f_equal. destruct g as [dn de], g' as [dn' de']. simpl in *.
  f_equal; apply map_eq; intros k; by rewrite ?Hn, ?Hn', ?He, ?He'.
Qed.

(** X14.  The last-write-wins merge of a graph with itself returns the
    graph. *)
Theorem mergeGraphsArbitrary_idempotent (g : GraphT) :
  mergeGraphsArbitrary g g = inr g.
Proof.
  apply arbitrary_eq; intros k; unfold overwritten.
  - by destruct (Graph.nodes g !! k).
  - by destruct (Graph.edges g !! k).
Qed.



(** X16.  Last-write-wins merges of two graphs without a common id can
    be made in either order. *)
Theorem mergeGraphsArbitrary_commute (g1 g2 g3 : GraphT) :
  Graph.nodes g2 ##ₘ Graph.nodes g3 ->
  Graph.edges g2 ##ₘ Graph.edges g3 ->
  (mergeGraphsArbitrary g1 g2 ≫= fun g => mergeGraphsArbitrary g g3)
  = (mergeGraphsArbitrary g1 g3 ≫= fun g => mergeGraphsArbitrary g g2).
Proof.
  intros Hn He.
  destruct (mergeGraphsArbitrary_lookup g1 g2) as (g12 & -> & Hn12 & He12).
  destruct (mergeGraphsArbitrary_lookup g1 g3) as (g13 & -> & Hn13 & He13).
  cbn [mbind exn_bind].
  destruct (mergeGraphsArbitrary_lookup g12 g3) as (g & -> & Hng & Heg).
  symmetry. apply arbitrary_eq; intros k.
  - rewrite Hng. unfold overwritten. rewrite Hn12, Hn13. unfold overwritten.
    pose proof (map_disjoint_spec (Graph.nodes g2) (Graph.nodes g3)) as Hspec.
    destruct (Graph.nodes g1 !! k), (Graph.nodes g2 !! k) eqn:E2,
      (Graph.nodes g3 !! k) eqn:E3; try done.
    exfalso. by eapply Hspec.
  - rewrite Heg. unfold overwritten. rewrite He12, He13. unfold overwritten.
    pose proof (map_disjoint_spec (Graph.edges g2) (Graph.edges g3)) as Hspec.
    destruct (Graph.edges g1 !! k), (Graph.edges g2 !! k) eqn:E2,
      (Graph.edges g3 !! k) eqn:E3; try done.
    exfalso. by eapply Hspec.
Qed.

End MergeExtras.

Lemma mergeGraphs_reduced_witness :
  reduced Scenario.last_wins_node (Graph.nodes Scenario.g1) (Graph.nodes Scenario.g2)
    (Graph.nodes Scenario.later_a) "p$r$a"
  /\ reduced Scenario.last_wins_edge (Graph.edges Scenario.g1)
       (Graph.edges Scenario.g2) (Graph.edges Scenario.later_a) "p$r$a".
Proof.
  apply (mergeGraphs_reduced Scenario.g1 Scenario.g2
           Scenario.last_wins_node Scenario.last_wins_edge Scenario.later_a).
  - split; reflexivity.
  - by vm_compute.
Defined.

Lemma mergeGraphs_keys_witness :
  dom (Graph.nodes Scenario.later_a) = dom (Graph.nodes Scenario.g1)
  /\ dom (Graph.edges Scenario.later_a) = dom (Graph.edges Scenario.g1).
Proof.
  apply (mergeGraphs_keys Scenario.g1 Scenario.g2
           Scenario.last_wins_node Scenario.last_wins_edge Scenario.later_a).
  - split; reflexivity.
  - by vm_compute.
Defined.

Lemma mergeGraphs_returns_iff_witness :
  exists g, mergeGraphs Scenario.g1 Scenario.g2
              Scenario.last_wins_node Scenario.last_wins_edge = inr g.
Proof.
  apply (mergeGraphs_returns_iff Scenario.g1 Scenario.g2
           Scenario.last_wins_node Scenario.last_wins_edge).
  - split; reflexivity.
  - split; intros k a b _ _; by eexists.
Defined.

Lemma mergeGraphs_throws_origin_witness :
  (exists k a b, Graph.nodes Scenario.g1 !! k = Some a
                 /\ Graph.nodes Scenario.g2 !! k = Some b
                 /\ confluentNodeReducer Scenario.stringify_payload a b = inl TypeError)
  \/ (exists k a b, Graph.edges Scenario.g1 !! k = Some a
                    /\ Graph.edges Scenario.g2 !! k = Some b
                    /\ confluentEdgeReducer Scenario.stringify_weight
                         Scenario.stringify_payload a b = inl TypeError).
Proof.
  apply (mergeGraphs_throws_origin Scenario.g1 Scenario.g2
           (confluentNodeReducer Scenario.stringify_payload)
           (confluentEdgeReducer Scenario.stringify_weight Scenario.stringify_payload)
           TypeError).
  - split; reflexivity.
  - by vm_compute.
Defined.

Lemma mergeGraphs_disjoint_witness :
  mergeGraphs Scenario.g1 Scenario.g3 Scenario.last_wins_node Scenario.last_wins_edge
  = inr Scenario.g1.
Proof.
  apply (mergeGraphs_disjoint Scenario.g1 Scenario.g3
           Scenario.last_wins_node Scenario.last_wins_edge).
  - split; reflexivity.
  - apply map_disjoint_singleton_l. reflexivity.
  - apply map_disjoint_empty_l.
Defined.

Lemma mergeGraphsConsistent_returns_iff_witness :
  Scenario.g1 = Scenario.g1
  /\ agree (JSON_stringify_node Scenario.stringify_payload)
       (Graph.nodes Scenario.g1) (Graph.nodes Scenario.g4)
  /\ agree (JSON_stringify_edge Scenario.stringify_weight Scenario.stringify_payload)
       (Graph.edges Scenario.g1) (Graph.edges Scenario.g4).
Proof.
  apply (mergeGraphsConsistent_returns_iff Scenario.stringify_weight
           Scenario.stringify_payload Scenario.g1 Scenario.g4 Scenario.g1).
  - split; reflexivity.
  - by vm_compute.
Defined.

Lemma mergeGraphsConsistent_symmetric_witness :
  exists g, Scenario.consistent Scenario.g4 Scenario.g1 = inr g.
Proof.
  unfold Scenario.consistent.
  apply (proj1 (mergeGraphsConsistent_symmetric Scenario.stringify_weight
                  Scenario.stringify_payload Scenario.g1 Scenario.g4
                  (conj eq_refl eq_refl) (conj eq_refl eq_refl))).
  exists Scenario.g1. by vm_compute.
Defined.

Lemma mergeGraphsArbitrary_commute_witness :
  (Scenario.arbitrary Scenario.g2 Scenario.g1 ≫= fun g => Scenario.arbitrary g Scenario.g3)
  = (Scenario.arbitrary Scenario.g2 Scenario.g3 ≫= fun g => Scenario.arbitrary g Scenario.g1).
Proof.
  apply (mergeGraphsArbitrary_commute Scenario.g2 Scenario.g1 Scenario.g3).
  - apply map_disjoint_singleton_l. reflexivity.
  - apply map_disjoint_empty_l.
Defined.
